(** * AIS forwarder: a shallow embedding of [ais_forwarder.py]

    The development follows the source file top-down: the module constants,
    the standard-library [queue.Queue] the handler is built on, the
    [SocketManager] class and the [AISHandler] class with its two loops.

    Conventions.
    - Python [bytes] are [list byte]; Python [int] is [Z]; seconds (the
      values of [time.time()], of the delays and of the timeouts) are
      rationals, a Python [float] being the rational it stands for.  The
      difference of two clock values is rounded as binary64 arithmetic
      rounds it ([float_sub]).  Every product the program forms for the
      delay is a dyadic rational with a short numerator ([5 * 3^k / 2^k]
      for [k <= 7], and [60 * 3 / 2]), so there the double-precision
      arithmetic of the source is exact and [Q] gives the very same
      numbers.
    - Every call the code makes on the outside world (sockets, the serial
      port, the queue, logging, [time.sleep], threads) is recorded, in
      program order, in a list of [Event]s; what the outside world answers
      (does [connect] raise, what does [readline] return, what time is it)
      is an explicit environment argument.
    - [threading.Lock] is not reentrant.  A [with self.socket_lock:] entered
      while the lock is held never gets past the acquisition; the outcome
      [Blocks] stands for a call that never returns. *)

From Stdlib Require Import List Bool Arith ZArith QArith Qminmax Qpower Qabs Qround.
From Stdlib Require Import Lia Lqa String.
From Stdlib Require Import Init.Byte Strings.Byte.
Import ListNotations.

Definition bytes := list byte.

(** ** Module constants (lines 27-32 of the source) *)

Definition MAX_QUEUE_SIZE : Z := 1000.
Definition SOCKET_TIMEOUT : Q := 5.
Definition RECONNECT_DELAY : Q := 5.
Definition BACKOFF_FACTOR : Q := 3 # 2.
Definition MAX_BACKOFF_DELAY : Q := 60.

(** [a < b] on rationals, as a boolean test. *)
Definition Qltb (a b : Q) : bool := negb (Qle_bool b a).

(** ** Double-precision subtraction

    [time.time()] and [self.last_attempt] are Python floats, and
    [current_time - self.last_attempt] is an IEEE 754 binary64
    subtraction: the exact difference rounded to the nearest number
    [m * 2^e] with [|m| <= 2^53] and [e >= -1074], a tie going to the even
    [m].  Infinities are left out: a difference too large for a double
    is kept as the large number it is, which any comparison with a delay
    of at most 60 seconds answers as it answers for an infinity. *)

(** The integer nearest to [q], a tie going to the even one. *)
Definition round_half_even (q : Q) : Z :=
  let below := Qfloor q in
  let twice_rest := 2 * (q - inject_Z below) in
  match Qcompare twice_rest 1 with
  | Lt => below
  | Gt => (below + 1)%Z
  | Eq => if Z.even below then below else (below + 1)%Z
  end.

(** [floor (log2 |q|)], for [q] other than 0. *)
Definition binade (q : Q) : Z :=
  let n := Z.abs (Qnum q) in
  let d := Zpos (Qden q) in
  let k := (Z.log2 n - Z.log2 d)%Z in
  if Qle_bool (2 ^ k) (Qabs q) then k else (k - 1)%Z.

Definition round_binary64 (q : Q) : Q :=
  let q := Qred q in
  if Qeq_bool q 0 then 0
  else
    let e := Z.max (binade q - 52) (-1074) in
    Qred (inject_Z (round_half_even (q * 2 ^ (- e))) * 2 ^ e).

Definition float_sub (a b : Q) : Q := round_binary64 (a - b).

(** ** Observable events *)

Inductive Level := DEBUG | INFO | WARNING | ERROR.

Inductive Message :=
  | Connected_to (host : string) (port : Z)
  | Failed_to_connect_to (host : string) (port : Z)
  | Error_sending_data_to (host : string) (port : Z)
  | Error_closing_socket
  | Received_AIS_data (line : bytes)
  | Queue_full_dropping_AIS_data
  | AIS_serial_read_error
  | Unexpected_error_in_producer
  | Sent_bytes (n : nat)
  | Failed_to_send_data_requeuing
  | Queue_full_dropping_data_on_send_failure
  | Unexpected_error_in_consumer
  | Connected_to_AIS_serial_port
  | Failed_to_connect_to_serial_port
  | Error_closing_serial_port
  | AIS_handler_started
  | Stopping_AIS_handler
  | AIS_handler_stopped.

Inductive ThreadName := AIS_Producer | AIS_Consumer.

(** A socket object is known by its identity. *)
Definition sock := nat.

Inductive Event :=
  | Log (lvl : Level) (msg : Message)
  (* socket calls; a call is recorded whether or not it raises *)
  | SockClose (h : sock)
  | SockCreate (h : option sock)          (* [None]: [socket.socket] raised *)
  | SockSetTimeout (h : sock) (t : Q)
  | SockConnect (h : sock) (host : string) (port : Z)
  | SockSendall (h : sock) (data : bytes)
  (* queue calls, with their arguments and what came of them *)
  | QPut (item : bytes) (block : bool) (timeout : option Q) (accepted : bool)
  | QGet (block : bool) (timeout : option Q) (item : option bytes)
  | QTaskDone
  (* serial port calls *)
  | SerialOpen (opened : bool)
  | SerialReadline
  | SerialClose
  (* time and threads *)
  | Sleep (t : Q)
  | ThreadStart (name : ThreadName)
  | ThreadJoin (name : ThreadName) (timeout : Q).

(** ** How a method call ends *)

Inductive outcome (St A : Type) :=
  | Returns (a : A) (s : St) (tr : list Event)
  | Raises (s : St) (tr : list Event)    (* an exception leaves the method *)
  | Blocks (s : St) (tr : list Event).   (* the call never returns *)
Arguments Returns {St A}.
Arguments Raises {St A}.
Arguments Blocks {St A}.

(** The state a call leaves behind and the events it produced, however
    it ends. *)
Definition final {St A} (o : outcome St A) : St :=
  match o with
  | Returns _ s _ => s
  | Raises s _ => s
  | Blocks s _ => s
  end.

Definition events {St A} (o : outcome St A) : list Event :=
  match o with
  | Returns _ _ tr => tr
  | Raises _ tr => tr
  | Blocks _ tr => tr
  end.

(** ** [queue.Queue] (Python standard library)

    A FIFO of items with an optional bound: [maxsize <= 0] means unbounded.
    [put] appends on the right when the queue is not full and raises
    [queue.Full] otherwise, at once when [block=False] and at the end of
    the timeout when [block=True]; [get] removes on the left and raises
    [queue.Empty] when there is nothing to take.  [None] is the raise.
    A blocking call is one step of the interleaving: it takes effect at
    the instant it returns or gives up. *)

Module Queue.

Record t := mk {
  maxsize : Z;
  items : list bytes;
  unfinished_tasks : Z
}.

Definition init (maxsize : Z) : t := mk maxsize [] 0.

Definition qsize (q : t) : Z := Z.of_nat (List.length (items q)).

Definition full (q : t) : bool :=
  (0 <? maxsize q)%Z && (maxsize q <=? qsize q)%Z.

Definition put (q : t) (item : bytes) : option t :=
  if full q then None
  else Some (mk (maxsize q) (items q ++ [item]) (unfinished_tasks q + 1)).

Definition get (q : t) : option (bytes * t) :=
  match items q with
  | [] => None
  | item :: rest => Some (item, mk (maxsize q) rest (unfinished_tasks q))
  end.

(** [task_done] raises [ValueError] when called more often than items
    were put. *)
Definition task_done (q : t) : option t :=
  if (unfinished_tasks q <=? 0)%Z then None
  else Some (mk (maxsize q) (items q) (unfinished_tasks q - 1)).

End Queue.

(** ** class SocketManager *)

Module SocketManager.

Record t := mk {
  host : string;
  port : Z;
  max_retries : Z;
  socket : option sock;
  socket_lock : bool;          (* [true]: the lock is held *)
  connected : bool;
  last_attempt : Q;
  backoff_delay : Q
}.

Definition set_socket (v : option sock) (s : t) : t :=
  mk (host s) (port s) (max_retries s) v (socket_lock s) (connected s)
     (last_attempt s) (backoff_delay s).
Definition set_socket_lock (v : bool) (s : t) : t :=
  mk (host s) (port s) (max_retries s) (socket s) v (connected s)
     (last_attempt s) (backoff_delay s).
Definition set_connected (v : bool) (s : t) : t :=
  mk (host s) (port s) (max_retries s) (socket s) (socket_lock s) v
     (last_attempt s) (backoff_delay s).
Definition set_last_attempt (v : Q) (s : t) : t :=
  mk (host s) (port s) (max_retries s) (socket s) (socket_lock s)
     (connected s) v (backoff_delay s).
Definition set_backoff_delay (v : Q) (s : t) : t :=
  mk (host s) (port s) (max_retries s) (socket s) (socket_lock s)
     (connected s) (last_attempt s) v.

(** [__init__] *)
Definition init (host : string) (port : Z) (max_retries : Z) : t :=
  mk host port max_retries None false false 0 RECONNECT_DELAY.

(** What [socket.connect((host, port))] does: it connects, it raises
    [socket.error] (refused, timed out, unreachable, unknown host), or it
    raises an exception of another kind, which the [except socket.error]
    of [connect] does not catch. *)
Inductive ConnectAnswer :=
  | Accepted
  | Socket_error
  | Other_exception.

(** What the outside world answers during one method call. *)
Record Env := mkEnv {
  now : Q;                     (* [time.time()] *)
  close_raises : bool;         (* [socket.close()] raises *)
  new_socket : option sock;    (* [socket.socket(...)]; [None]: it raises *)
  connect_answer : ConnectAnswer;   (* [socket.connect(...)] *)
  sendall_raises : bool        (* [socket.sendall(...)] raises [socket.error] *)
}.

(** [socket.connect] refuses a port outside 0..65535 with an
    [OverflowError] before it does anything else. *)
Definition port_in_range (p : Z) : bool := (0 <=? p)%Z && (p <=? 65535)%Z.

Definition socket_connect (e : Env) (p : Z) : ConnectAnswer :=
  if port_in_range p then connect_answer e else Other_exception.

(** The methods are written in a state monad that also collects the
    events and stops at the first call that raises or blocks. *)
Definition M (A : Type) := t -> outcome t A.

Definition ret {A} (a : A) : M A := fun s => Returns a s [].

Definition bind {A B} (m : M A) (k : A -> M B) : M B := fun s =>
  match m s with
  | Returns a s1 tr1 =>
      match k a s1 with
      | Returns b s2 tr2 => Returns b s2 (tr1 ++ tr2)
      | Raises s2 tr2 => Raises s2 (tr1 ++ tr2)
      | Blocks s2 tr2 => Blocks s2 (tr1 ++ tr2)
      end
  | Raises s1 tr1 => Raises s1 tr1
  | Blocks s1 tr1 => Blocks s1 tr1
  end.

Definition read : M t := fun s => Returns s s [].
Definition modify (f : t -> t) : M unit := fun s => Returns tt (f s) [].
Definition emit (e : Event) : M unit := fun s => Returns tt s [e].
Definition raise {A} : M A := fun s => Raises s [].

Declare Scope sm_scope.
Delimit Scope sm_scope with sm.
Notation "x <- m ;; k" := (bind m (fun x => k))
  (at level 61, m at next level, right associativity) : sm_scope.
Notation "m ;; k" := (bind m (fun _ => k))
  (at level 61, right associativity) : sm_scope.
Local Open Scope sm_scope.

(** [with self.socket_lock: body].  The lock is released on every way
    out of the body, a raise included; a body that blocks keeps it. *)
Definition with_socket_lock {A} (body : M A) : M A := fun s =>
  if socket_lock s then Blocks s []
  else
    match body (set_socket_lock true s) with
    | Returns a s1 tr => Returns a (set_socket_lock false s1) tr
    | Raises s1 tr => Raises (set_socket_lock false s1) tr
    | Blocks s1 tr => Blocks s1 tr
    end.

(** The [try] block of [connect] (lines 176-181): [true] when it runs to
    its end, [false] when one of its calls raises [socket.error]; an
    exception of another kind leaves the block, and the method. *)
Definition connect_try (e : Env) : M bool :=
  s <- read ;;
  closed <- match socket s with
            | Some h => emit (SockClose h) ;; ret (negb (close_raises e))
            | None => ret true
            end ;;
  if negb closed then ret false
  else
    emit (SockCreate (new_socket e)) ;;
    match new_socket e with
    | None => ret false
    | Some h =>
        modify (set_socket (Some h)) ;;
        emit (SockSetTimeout h SOCKET_TIMEOUT) ;;
        emit (SockConnect h (host s) (port s)) ;;
        match socket_connect e (port s) with
        | Accepted => ret true
        | Socket_error => ret false
        | Other_exception => raise
        end
    end.

Definition connect (e : Env) : M bool :=
  with_socket_lock (
    s <- read ;;
    if connected s then ret true
    else
      let current_time := now e in
      let time_since_last_attempt := float_sub current_time (last_attempt s) in
      if Qltb time_since_last_attempt (backoff_delay s) then ret false
      else
        modify (set_last_attempt current_time) ;;
        ok <- connect_try e ;;
        if ok then
          modify (set_connected true) ;;
          modify (set_backoff_delay RECONNECT_DELAY) ;;
          emit (Log INFO (Connected_to (host s) (port s))) ;;
          ret true
        else
          emit (Log WARNING (Failed_to_connect_to (host s) (port s))) ;;
          modify (fun s' => set_backoff_delay
                    (Qmin (backoff_delay s' * BACKOFF_FACTOR) MAX_BACKOFF_DELAY) s') ;;
          modify (set_connected false) ;;
          ret false).

Definition send (e : Env) (data : bytes) : M bool :=
  with_socket_lock (
    s <- read ;;
    bail_out <- (if negb (connected s)
                 then (c <- connect e ;; ret (negb c))
                 else ret false) ;;
    if bail_out then ret false
    else
      s1 <- read ;;
      match socket s1 with
      | None => raise            (* [None.sendall]: AttributeError *)
      | Some h =>
          emit (SockSendall h data) ;;
          if sendall_raises e then
            emit (Log WARNING (Error_sending_data_to (host s1) (port s1))) ;;
            modify (set_connected false) ;;
            ret false
          else ret true
      end).

Definition close (e : Env) : M unit :=
  with_socket_lock (
    s <- read ;;
    match socket s with
    | Some h =>
        emit (SockClose h) ;;
        (if close_raises e then emit (Log WARNING Error_closing_socket)
         else ret tt) ;;
        modify (set_connected false) ;;
        modify (set_socket None)
    | None => ret tt
    end).

End SocketManager.

(** ** dataclass AISConfig *)

Module AISConfig.
Record t := mk {
  serial_port : string;
  ip : string;
  port : Z;
  baudrate : Z;
  serial_timeout : Q;
  max_retries : Z;
  log_level : string;
  log_file : option string;
  log_max_size : Z;
  log_backup_count : Z
}.
End AISConfig.

(** ** class AISHandler *)

Module AISHandler.

(** A [serial.Serial] object, as far as the handler looks at it. *)
Record Serial := mkSerial { is_open : bool }.

Record t := mk {
  config : AISConfig.t;
  serial_port : option Serial;
  data_queue : Queue.t;
  socket_manager : SocketManager.t;
  running : bool;
  producer_thread : option ThreadName;
  consumer_thread : option ThreadName
}.

Definition set_serial_port (v : option Serial) (h : t) : t :=
  mk (config h) v (data_queue h) (socket_manager h) (running h)
     (producer_thread h) (consumer_thread h).
Definition set_data_queue (v : Queue.t) (h : t) : t :=
  mk (config h) (serial_port h) v (socket_manager h) (running h)
     (producer_thread h) (consumer_thread h).
Definition set_socket_manager (v : SocketManager.t) (h : t) : t :=
  mk (config h) (serial_port h) (data_queue h) v (running h)
     (producer_thread h) (consumer_thread h).
Definition set_running (v : bool) (h : t) : t :=
  mk (config h) (serial_port h) (data_queue h) (socket_manager h) v
     (producer_thread h) (consumer_thread h).
Definition set_threads (p c : option ThreadName) (h : t) : t :=
  mk (config h) (serial_port h) (data_queue h) (socket_manager h)
     (running h) p c.

(** [__init__] *)
Definition init (config : AISConfig.t) : t :=
  mk config None (Queue.init MAX_QUEUE_SIZE)
     (SocketManager.init (AISConfig.ip config) (AISConfig.port config)
                         (AISConfig.max_retries config))
     false None None.

(** What [readline] does. *)
Inductive ReadResult :=
  | Line (line : bytes)          (* [b""] when the read timed out *)
  | SerialException
  | OtherException.

(** What [serial.Serial(port, baudrate=..., timeout=...)] does: it opens
    the port, it raises [SerialException] (the device is missing or
    busy), or it raises an exception of another kind (a [ValueError] for
    a baud rate or a timeout it does not accept). *)
Inductive OpenResult :=
  | Opens
  | Open_SerialException
  | Open_other_exception.

(** What the serial side answers during one iteration of the read loop. *)
Record ProducerEnv := mkProducerEnv {
  serial_open : OpenResult;
  readline : ReadResult;
  serial_close_raises : bool
}.

(** [_connect_serial] catches [SerialException] only: an exception of
    another kind leaves the method, with [self.serial_port] as it was. *)
Definition _connect_serial (r : OpenResult) (h : t) : outcome t unit :=
  match r with
  | Opens =>
      Returns tt (set_serial_port (Some (mkSerial true)) h)
        [SerialOpen true; Log INFO Connected_to_AIS_serial_port]
  | Open_SerialException =>
      Returns tt (set_serial_port None h)
        [SerialOpen false; Log ERROR Failed_to_connect_to_serial_port]
  | Open_other_exception => Raises h [SerialOpen false]
  end.

Definition _close_serial (close_raises : bool) (h : t) : t * list Event :=
  match serial_port h with
  | Some p =>
      if is_open p then
        (set_serial_port None h,
         SerialClose ::
           (if close_raises then [Log WARNING Error_closing_serial_port] else []))
      else (h, [])
  | None => (h, [])
  end.

(** Lines 255-268: the read, the enqueue and the two handlers. *)
Definition read_and_enqueue (e : ProducerEnv) (h : t) : t * list Event :=
  match readline e with
  | Line line =>
      match line with
      | [] => (h, [SerialReadline])
      | _ :: _ =>
          match Queue.put (data_queue h) line with
          | Some q =>
              (set_data_queue q h,
               [SerialReadline; Log DEBUG (Received_AIS_data line);
                QPut line true (Some 1) true])
          | None =>
              (h,
               [SerialReadline; Log DEBUG (Received_AIS_data line);
                QPut line true (Some 1) false;
                Log WARNING Queue_full_dropping_AIS_data])
          end
      end
  | SerialException =>
      let '(h1, tr) := _close_serial (serial_close_raises e) h in
      (h1, [SerialReadline; Log ERROR AIS_serial_read_error] ++ tr
             ++ [Sleep RECONNECT_DELAY])
  | OtherException =>
      (h, [SerialReadline; Log ERROR Unexpected_error_in_producer; Sleep 1])
  end.

(** One pass through the body of the [while] of [_producer]. *)
Definition _producer_body (e : ProducerEnv) (h : t) : t * list Event :=
  let reopen := match serial_port h with
                | None => true
                | Some p => negb (is_open p)
                end in
  if reopen then
    match _connect_serial (serial_open e) h with
    | Returns _ h1 tr1 =>
        match serial_port h1 with
        | None => (h1, tr1 ++ [Sleep RECONNECT_DELAY])
        | Some _ =>
            let '(h2, tr2) := read_and_enqueue e h1 in (h2, tr1 ++ tr2)
        end
    | Raises h1 tr1 | Blocks h1 tr1 =>
        (* lines 266-268: the handler of the loop for any other exception *)
        (h1, tr1 ++ [Log ERROR Unexpected_error_in_producer; Sleep 1])
    end
  else read_and_enqueue e h.

(** Where the consumer thread is in its loop. *)
Inductive ConsumerPc :=
  | AtGet                        (* at the head of the loop *)
  | AtSend (data : bytes)        (* [get] returned [data] *)
  | InSend (data : bytes).       (* inside a [send] that never returns *)

(** Lines 275-278: the dequeue. *)
Definition _consumer_get (h : t) : t * ConsumerPc * list Event :=
  match Queue.get (data_queue h) with
  | Some (data, q) =>
      (set_data_queue q h, AtSend data, [QGet true (Some 1) (Some data)])
  | None => (h, AtGet, [QGet true (Some 1) None])
  end.

(** Line 291 and the handler of lines 292-294 when [task_done] raises. *)
Definition finish_task (h : t) : t * list Event :=
  match Queue.task_done (data_queue h) with
  | Some q => (set_data_queue q h, [QTaskDone])
  | None => (h, [QTaskDone; Log ERROR Unexpected_error_in_consumer; Sleep 1])
  end.

(** Lines 285-289: the re-enqueue after a failed send. *)
Definition requeue (data : bytes) (h : t) : t * list Event :=
  match Queue.put (data_queue h) data with
  | Some q => (set_data_queue q h, [QPut data false None true])
  | None =>
      (h, [QPut data false None false;
           Log WARNING Queue_full_dropping_data_on_send_failure])
  end.

(** Lines 280-294: the send and what follows it. *)
Definition _consumer_send (e : SocketManager.Env) (data : bytes) (h : t)
  : t * ConsumerPc * list Event :=
  match SocketManager.send e data (socket_manager h) with
  | Returns sent sm tr =>
      let h1 := set_socket_manager sm h in
      if sent then
        let '(h2, tr2) := finish_task h1 in
        (h2, AtGet, tr ++ [Log DEBUG (Sent_bytes (List.length data))] ++ tr2)
      else
        let '(h2, tr2) := requeue data h1 in
        let '(h3, tr3) := finish_task h2 in
        (h3, AtGet, tr ++ [Log WARNING Failed_to_send_data_requeuing] ++ tr2 ++ tr3)
  | Raises sm tr =>
      (set_socket_manager sm h, AtGet,
       tr ++ [Log ERROR Unexpected_error_in_consumer; Sleep 1])
  | Blocks sm tr => (set_socket_manager sm h, InSend data, tr)
  end.

(** [start] *)
Definition start (h : t) : t * list Event :=
  if running h then (h, [])
  else
    (set_threads (Some AIS_Producer) (Some AIS_Consumer) (set_running true h),
     [ThreadStart AIS_Producer; ThreadStart AIS_Consumer;
      Log INFO AIS_handler_started]).

(** What [stop] meets: the answers of the two [is_alive()] calls and of
    the two closes. *)
Record StopEnv := mkStopEnv {
  producer_is_alive : bool;
  consumer_is_alive : bool;
  stop_serial_close_raises : bool;
  stop_socket_env : SocketManager.Env
}.

Definition join_if_alive (th : option ThreadName) (alive : bool) : list Event :=
  match th with
  | Some name => if alive then [ThreadJoin name 5] else []
  | None => []
  end.

(** [stop] *)
Definition stop (e : StopEnv) (h : t) : outcome t unit :=
  if negb (running h) then Returns tt h []
  else
    let h1 := set_running false h in
    let tr1 := [Log INFO Stopping_AIS_handler]
                 ++ join_if_alive (producer_thread h1) (producer_is_alive e)
                 ++ join_if_alive (consumer_thread h1) (consumer_is_alive e) in
    let '(h2, tr2) := _close_serial (stop_serial_close_raises e) h1 in
    match SocketManager.close (stop_socket_env e) (socket_manager h2) with
    | Returns _ sm tr3 =>
        Returns tt (set_socket_manager sm h2)
                (tr1 ++ tr2 ++ tr3 ++ [Log INFO AIS_handler_stopped])
    | Raises sm tr3 => Raises (set_socket_manager sm h2) (tr1 ++ tr2 ++ tr3)
    | Blocks sm tr3 => Blocks (set_socket_manager sm h2) (tr1 ++ tr2 ++ tr3)
    end.

(** *** The two loops side by side

    The producer thread and the consumer thread share the queue (and
    the [running] flag).  An execution is a sequence of atomic actions:
    a pass of the read loop, whose only access to shared data is its
    one [put]; the [get] of the send loop; and the rest of the send
    loop's pass, from [send] to [task_done].  Between a [get] and the
    re-enqueue that may follow it the producer can put records, which
    is what can make the re-enqueue find the queue full.  An action
    whose thread is not at that point, or whose loop condition
    [self.running] is false, does nothing. *)

Record System := mkSystem {
  handler : t;
  consumer_pc : ConsumerPc
}.

Inductive Action :=
  | ProducerPass (e : ProducerEnv)
  | ConsumerGet
  | ConsumerSend (e : SocketManager.Env).

Definition step (a : Action) (st : System) : System * list Event :=
  match a with
  | ProducerPass e =>
      if running (handler st) then
        let '(h, tr) := _producer_body e (handler st) in
        (mkSystem h (consumer_pc st), tr)
      else (st, [])
  | ConsumerGet =>
      match consumer_pc st with
      | AtGet =>
          if running (handler st) then
            let '(h, pc, tr) := _consumer_get (handler st) in
            (mkSystem h pc, tr)
          else (st, [])
      | _ => (st, [])
      end
  | ConsumerSend e =>
      match consumer_pc st with
      | AtSend data =>
          let '(h, pc, tr) := _consumer_send e data (handler st) in
          (mkSystem h pc, tr)
      | _ => (st, [])
      end
  end.

Fixpoint run (acts : list Action) (st : System) : System * list Event :=
  match acts with
  | [] => (st, [])
  | a :: rest =>
      let '(st1, tr1) := step a st in
      let '(st2, tr2) := run rest st1 in
      (st2, tr1 ++ tr2)
  end.

End AISHandler.

(** ** Reading a trace *)

(** The records offered by the read loop (its blocking puts), those of
    them the queue refused, every record that entered the queue, from
    either loop, and the records the send loop took out. *)
Fixpoint offered (tr : list Event) : list bytes :=
  match tr with
  | [] => []
  | QPut item true _ _ :: rest => item :: offered rest
  | _ :: rest => offered rest
  end.

Fixpoint refused (tr : list Event) : list bytes :=
  match tr with
  | [] => []
  | QPut item _ _ false :: rest => item :: refused rest
  | _ :: rest => refused rest
  end.

Fixpoint enqueued (tr : list Event) : list bytes :=
  match tr with
  | [] => []
  | QPut item _ _ true :: rest => item :: enqueued rest
  | _ :: rest => enqueued rest
  end.

Fixpoint dequeued (tr : list Event) : list bytes :=
  match tr with
  | [] => []
  | QGet _ _ (Some item) :: rest => item :: dequeued rest
  | _ :: rest => dequeued rest
  end.

(** The non-blocking re-enqueues of the send loop. *)
Fixpoint requeues (tr : list Event) : list bytes :=
  match tr with
  | [] => []
  | QPut item false _ _ :: rest => item :: requeues rest
  | _ :: rest => requeues rest
  end.

(** Socket calls of each kind. *)
Definition is_sock_call (e : Event) : bool :=
  match e with
  | SockClose _ | SockCreate _ | SockSetTimeout _ _ | SockConnect _ _ _
  | SockSendall _ _ => true
  | _ => false
  end.

Definition is_sock_connect (e : Event) : bool :=
  match e with SockConnect _ _ _ => true | _ => false end.

Definition is_sock_create (e : Event) : bool :=
  match e with SockCreate _ => true | _ => false end.

Definition count (p : Event -> bool) (tr : list Event) : nat :=
  List.length (filter p tr).

(** ** Notions the properties are stated with *)

Import SocketManager.

(** The state invariant of a manager: a manager that says it is connected
    has a socket. *)
Definition holds_invariant (s : SocketManager.t) : Prop :=
  connected s = true -> socket s <> None.

(** The public methods of a manager, and the state any sequence of calls
    leaves it in. *)
Inductive Call :=
  | CallConnect (e : Env)
  | CallSend (e : Env) (data : bytes)
  | CallClose (e : Env).

Definition after_call (c : Call) (s : SocketManager.t) : SocketManager.t :=
  match c with
  | CallConnect e => final (connect e s)
  | CallSend e data => final (send e data s)
  | CallClose e => final (close e s)
  end.

Fixpoint after_calls (cs : list Call) (s : SocketManager.t) : SocketManager.t :=
  match cs with
  | [] => s
  | c :: rest => after_calls rest (after_call c s)
  end.

(** The one line [connect] logs at the end of every pass through its
    [try] block: "Connected to" or "Failed to connect to". *)
Definition is_connect_verdict (ev : Event) : bool :=
  match ev with
  | Log INFO (Connected_to _ _) | Log WARNING (Failed_to_connect_to _ _) => true
  | _ => false
  end.

(** The pass through the [try] block of [connect] gets as far as
    [socket.connect]: the stale socket, if any, is closed without an
    error and the new socket is created. *)
Definition reaches_connect (e : Env) (s : SocketManager.t) : bool :=
  match socket s with
  | Some _ => negb (close_raises e)
  | None => true
  end &&
  match new_socket e with
  | Some _ => true
  | None => false
  end.

(** It gets there, and [socket.connect] raises an exception that is not
    a [socket.error]. *)
Definition connect_escapes (e : Env) (s : SocketManager.t) : bool :=
  reaches_connect e s &&
  match socket_connect e (SocketManager.port s) with
  | Other_exception => true
  | Accepted | Socket_error => false
  end.

(** [connect] called once per environment, one call after the other. *)
Fixpoint connect_repeatedly (es : list Env) (s : SocketManager.t) : SocketManager.t :=
  match es with
  | [] => s
  | e :: rest => connect_repeatedly rest (final (connect e s))
  end.

(** A connect failure: the call got past the backoff test and returned
    [False]. *)
Definition failed_attempt (e : Env) (s : SocketManager.t) : bool :=
  negb (Qltb (float_sub (now e) (last_attempt s)) (backoff_delay s)) &&
  match connect e s with
  | Returns false _ _ => true
  | _ => false
  end.

Fixpoint consecutive_failures (es : list Env) (s : SocketManager.t) : bool :=
  match es with
  | [] => true
  | e :: rest =>
      failed_attempt e s && consecutive_failures rest (final (connect e s))
  end.

(** The delay as the specification writes it: [min(base * factor^N, max)]. *)
Definition spec_backoff_delay (n : nat) : Q :=
  Qmin (RECONNECT_DELAY * BACKOFF_FACTOR ^ Z.of_nat n) MAX_BACKOFF_DELAY.

Import AISHandler.

Definition queue_of (st : System) : list bytes :=
  Queue.items (data_queue (handler st)).

Definition bound_of (st : System) : Z :=
  Queue.maxsize (data_queue (handler st)).

Definition serial_is_open (h : AISHandler.t) : bool :=
  match serial_port h with
  | Some p => is_open p
  | None => false
  end.

(** What [stop] has to do to close the serial port and the socket it
    finds. *)
Definition closed_serial_events (e : StopEnv) (h : AISHandler.t) : list Event :=
  if serial_is_open h then
    SerialClose ::
      (if stop_serial_close_raises e then [Log WARNING Error_closing_serial_port]
       else [])
  else [].

Definition closed_socket_events (e : StopEnv) (h : AISHandler.t) : list Event :=
  match socket (socket_manager h) with
  | Some s =>
      SockClose s ::
        (if close_raises (stop_socket_env e) then [Log WARNING Error_closing_socket]
         else [])
  | None => []
  end.

(** *** Case analyses used in the proofs *)

(** The five ways a call of [send] can go. *)
Inductive send_shape (e : Env) (data : bytes) (s : SocketManager.t)
  : outcome SocketManager.t bool -> Prop :=
  | ss_lock_held :
      socket_lock s = true -> send_shape e data s (Blocks s [])
  | ss_deadlock :
      socket_lock s = false -> connected s = false ->
      send_shape e data s (Blocks (set_socket_lock true s) [])
  | ss_no_socket :
      socket_lock s = false -> connected s = true -> socket s = None ->
      send_shape e data s (Raises s [])
  | ss_sent h :
      socket_lock s = false -> connected s = true -> socket s = Some h ->
      sendall_raises e = false ->
      send_shape e data s (Returns true s [SockSendall h data])
  | ss_failed h :
      socket_lock s = false -> connected s = true -> socket s = Some h ->
      sendall_raises e = true ->
      send_shape e data s
        (Returns false (set_connected false s)
           [SockSendall h data;
            Log WARNING (Error_sending_data_to (host s) (SocketManager.port s))]).

(** A trace without any queue call. *)
Definition quiet (tr : list Event) : Prop :=
  offered tr = [] /\ requeues tr = [] /\ enqueued tr = [] /\
  refused tr = [] /\ dequeued tr = [].

(** What one action can do to the content of the queue: nothing, append
    a record offered by the read loop, refuse it, append a record given
    back by the send loop, refuse it, or hand out the head. *)
Inductive queue_effect (xs : list bytes) (tr : list Event) (ys : list bytes) : Prop :=
  | qe_none :
      offered tr = [] -> requeues tr = [] -> enqueued tr = [] ->
      refused tr = [] -> dequeued tr = [] -> ys = xs ->
      queue_effect xs tr ys
  | qe_offer_accepted x :
      offered tr = [x] -> requeues tr = [] -> enqueued tr = [x] ->
      refused tr = [] -> dequeued tr = [] -> ys = xs ++ [x] ->
      (Z.of_nat (List.length xs) < MAX_QUEUE_SIZE)%Z ->
      queue_effect xs tr ys
  | qe_offer_refused x :
      offered tr = [x] -> requeues tr = [] -> enqueued tr = [] ->
      refused tr = [x] -> dequeued tr = [] -> ys = xs ->
      (MAX_QUEUE_SIZE <= Z.of_nat (List.length xs))%Z ->
      queue_effect xs tr ys
  | qe_requeue_accepted x :
      offered tr = [] -> requeues tr = [x] -> enqueued tr = [x] ->
      refused tr = [] -> dequeued tr = [] -> ys = xs ++ [x] ->
      (Z.of_nat (List.length xs) < MAX_QUEUE_SIZE)%Z ->
      queue_effect xs tr ys
  | qe_requeue_refused x :
      offered tr = [] -> requeues tr = [x] -> enqueued tr = [] ->
      refused tr = [x] -> dequeued tr = [] -> ys = xs ->
      (MAX_QUEUE_SIZE <= Z.of_nat (List.length xs))%Z ->
      queue_effect xs tr ys
  | qe_get x :
      offered tr = [] -> requeues tr = [] -> enqueued tr = [] ->
      refused tr = [] -> dequeued tr = [x] -> xs = x :: ys ->
      queue_effect xs tr ys.

(** ** Sample runs *)

Module Sample.

Definition config : AISConfig.t :=
  AISConfig.mk "/dev/serial0" "192.168.1.50" 10110 38400 2 3 "INFO" None
               10485760 5.

Definition sentence_A : bytes := list_byte_of_string "!AIVDM,1,1,,A,A*00".
Definition sentence_B : bytes := list_byte_of_string "!AIVDM,1,1,,B,B*00".
Definition sentence_C : bytes := list_byte_of_string "!AIVDM,1,1,,A,C*00".

(** The endpoint refuses, or accepts, a connection asked for at time [t]. *)
Definition refused_at (t : Q) : Env := mkEnv t false (Some 1%nat) Socket_error false.
Definition accepted_at (t : Q) : Env := mkEnv t false (Some 2%nat) Accepted false.
(** A write on an established connection goes through, or is reset. *)
Definition write_ok : Env := mkEnv 200 false None Accepted false.
Definition write_reset : Env := mkEnv 200 false None Accepted true.

Definition fresh : SocketManager.t := SocketManager.init "192.168.1.50" 10110 3.
Definition after_one_failure : SocketManager.t := final (connect (refused_at 100) fresh).
Definition connected_manager : SocketManager.t := final (connect (accepted_at 100) fresh).

(** The doubles nearest to 0.1 and to 5.1, and a manager whose last
    attempt is stamped with the first of them. *)
Definition tenth : Q := 3602879701896397 # 36028797018963968.
Definition five_and_a_tenth : Q := 5742089524897382 # 1125899906842624.
Definition attempted_at_a_tenth : SocketManager.t := set_last_attempt tenth fresh.

(** Eight refusals, each tried after the current delay has gone by. *)
Definition eight_refusals : list Env :=
  map refused_at [100; 200; 300; 400; 500; 600; 700; 800].

Definition reads (line : bytes) : ProducerEnv := mkProducerEnv Opens (Line line) false.

(** A handler that has been started. *)
Definition started : AISHandler.t := fst (start (AISHandler.init config)).

(** The same with an open serial port and an established connection. *)
Definition forwarding : AISHandler.t :=
  set_serial_port (Some (mkSerial true))
    (set_socket_manager connected_manager started).

(** The same again with a queue at capacity. *)
Definition saturated : AISHandler.t :=
  set_data_queue (Queue.mk MAX_QUEUE_SIZE (repeat sentence_A 1000) 1000) forwarding.

(** The send loop holds [sentence_A]; [sentence_B] and [sentence_C] wait. *)
Definition holding_A : System :=
  mkSystem (set_data_queue (Queue.mk MAX_QUEUE_SIZE [sentence_B; sentence_C] 3)
                           forwarding)
           (AtSend sentence_A).

Definition three_in_three_out : list Action :=
  [ProducerPass (reads sentence_A); ProducerPass (reads sentence_B);
   ConsumerGet; ConsumerSend write_ok;
   ProducerPass (reads sentence_C);
   ConsumerGet; ConsumerSend write_ok; ConsumerGet; ConsumerSend write_ok].

Definition stop_env : StopEnv := mkStopEnv true true false write_ok.

End Sample.

(** ** Further notions: sequences of calls, bookkeeping, configuration *)

(** The events of one call and of a sequence of calls on a manager. *)
Definition call_events (c : Call) (s : SocketManager.t) : list Event :=
  match c with
  | CallConnect e => events (connect e s)
  | CallSend e data => events (send e data s)
  | CallClose e => events (close e s)
  end.

Fixpoint calls_events (cs : list Call) (s : SocketManager.t) : list Event :=
  match cs with
  | [] => []
  | c :: rest => call_events c s ++ calls_events rest (after_call c s)
  end.

(** Following the sockets through a trace: [live] is the socket created
    and not yet closed.  The result is [None] when a socket is created
    while another one is still open. *)
Fixpoint track_sockets (live : option sock) (tr : list Event)
  : option (option sock) :=
  match tr with
  | [] => Some live
  | SockClose h :: rest =>
      track_sockets
        (match live with
         | Some h' => if Nat.eqb h h' then None else live
         | None => None
         end) rest
  | SockCreate (Some h) :: rest =>
      match live with
      | None => track_sockets (Some h) rest
      | Some _ => None
      end
  | _ :: rest => track_sockets live rest
  end.

(** The delay stays between the base and the cap. *)
Definition delay_in_range (s : SocketManager.t) : Prop :=
  RECONNECT_DELAY <= backoff_delay s /\ backoff_delay s <= MAX_BACKOFF_DELAY.

(** The number of records the send loop has in hand. *)
Definition in_hand (pc : ConsumerPc) : Z :=
  match pc with
  | AtGet => 0
  | AtSend _ | InSend _ => 1
  end.

(** The counter behind [Queue.join] counts the records queued or in hand. *)
Definition tasks_balanced (st : System) : Prop :=
  Queue.unfinished_tasks (data_queue (handler st))
    = (Z.of_nat (List.length (queue_of st)) + in_hand (consumer_pc st))%Z.

Definition is_unexpected_consumer_error (ev : Event) : bool :=
  match ev with
  | Log ERROR Unexpected_error_in_consumer => true
  | _ => false
  end.

(** A pass of the read loop that meets a fault: the port has to be
    (re)opened and cannot be, or [readline] raises. *)
Definition needs_open (h : AISHandler.t) : bool :=
  match serial_port h with
  | None => true
  | Some p => negb (is_open p)
  end.

Definition open_fails (e : ProducerEnv) : bool :=
  match serial_open e with
  | Opens => false
  | Open_SerialException | Open_other_exception => true
  end.

Definition pass_meets_fault (e : ProducerEnv) (h : AISHandler.t) : bool :=
  (needs_open h && open_fails e) ||
  match readline e with
  | Line _ => false
  | SerialException | OtherException => true
  end.

(** *** [load_config]

    [configparser] is taken as it presents a file once read: whether the
    path exists, whether reading it raises, whether it has a section
    [AIS], the options visible in that section with the values their
    interpolation gives, and the options whose interpolation fails (a
    lone [%], a reference to an option that does not exist): fetching
    one of those raises.  The built-in conversions [int] and [float] are
    parameters. *)

Record ConfigFile := mkConfigFile {
  path_exists : bool;
  read_raises : bool;
  has_section_AIS : bool;
  AIS_options : list (string * string);
  interpolation_fails : list string
}.

(** The exception that ends the [try] block; it is what the error line
    of the log reports. *)
Inductive ConfigError :=
  | File_not_found
  | Read_failed
  | Missing_AIS_section
  | Missing_required_field (field : string)
  | Interpolation_error (option_name : string)
  | Invalid_value (option_name : string).

Inductive LoadResult :=
  | Loaded (c : AISConfig.t)
  | SystemExit (code : Z) (logged : ConfigError).

Fixpoint get_option (opts : list (string * string)) (key : string) : option string :=
  match opts with
  | [] => None
  | (k, v) :: rest => if String.eqb k key then Some v else get_option rest key
  end.

Definition has_option (opts : list (string * string)) (key : string) : bool :=
  match get_option opts key with
  | Some _ => true
  | None => false
  end.

Definition required_fields : list string := ["serial_port"; "ip"; "port"]%string.

(** The [for] loop over the required fields: the first one missing. *)
Fixpoint first_missing (opts : list (string * string)) (fields : list string)
  : option string :=
  match fields with
  | [] => None
  | f :: rest => if has_option opts f then first_missing opts rest else Some f
  end.

Section LoadConfig.

Variable py_int : string -> option Z.
Variable py_float : string -> option Q.

Variable f : ConfigFile.

(** Fetching an option of the section: [None] when it is absent, else
    its value, or the error its interpolation raises. *)
Definition fetch (key : string) : option (ConfigError + string) :=
  match get_option (AIS_options f) key with
  | None => None
  | Some value =>
      if existsb (String.eqb key) (interpolation_fails f)
      then Some (inl (Interpolation_error key))
      else Some (inr value)
  end.

Definition and_then {A B} (r : ConfigError + A) (k : A -> ConfigError + B)
  : ConfigError + B :=
  match r with
  | inl err => inl err
  | inr a => k a
  end.

Definition convert {A} (conv : string -> option A) (key value : string)
  : ConfigError + A :=
  match conv value with
  | Some a => inr a
  | None => inl (Invalid_value key)
  end.

(** [config["AIS"][key]]: the option has to be there. *)
Definition get_required (key : string) : ConfigError + string :=
  match fetch key with
  | Some r => r
  | None => inl (Missing_required_field key)
  end.

(** [getint], [getfloat] and [get] with a fallback: the fallback stands
    in for an absent option only. *)
Definition get_converted {A} (conv : string -> option A) (key : string)
    (fallback : A) : ConfigError + A :=
  match fetch key with
  | Some r => and_then r (convert conv key)
  | None => inr fallback
  end.

Definition get_with_fallback {A} (wrap : string -> A) (key : string)
    (fallback : A) : ConfigError + A :=
  match fetch key with
  | Some r => and_then r (fun value => inr (wrap value))
  | None => inr fallback
  end.

(** Lines 122-133: the arguments of [AISConfig(...)], left to right. *)
Definition build_config : ConfigError + AISConfig.t :=
  and_then (get_required "serial_port") (fun serial_port =>
  and_then (get_required "ip") (fun ip =>
  and_then (and_then (get_required "port") (convert py_int "port")) (fun port =>
  and_then (get_converted py_int "baudrate" 38400%Z) (fun baudrate =>
  and_then (get_converted py_float "serial_timeout" 2) (fun serial_timeout =>
  and_then (get_converted py_int "max_retries" 3%Z) (fun max_retries =>
  and_then (get_with_fallback (fun v => v) "log_level" "INFO"%string)
    (fun log_level =>
  and_then (get_with_fallback Some "log_file" None) (fun log_file =>
  and_then (get_converted py_int "log_max_size" (10 * 1024 * 1024)%Z)
    (fun log_max_size =>
  and_then (get_converted py_int "log_backup_count" 5%Z)
    (fun log_backup_count =>
  inr (AISConfig.mk serial_port ip port baudrate serial_timeout max_retries
         log_level log_file log_max_size log_backup_count))))))))))).

(** Lines 107-135: the [try] block. *)
Definition load_config_try : ConfigError + AISConfig.t :=
  if negb (path_exists f) then inl File_not_found
  else if read_raises f then inl Read_failed
  else if negb (has_section_AIS f) then inl Missing_AIS_section
  else
    match first_missing (AIS_options f) required_fields with
    | Some field => inl (Missing_required_field field)
    | None => build_config
    end.

(** [load_config]: every exception of the [try] block is logged and
    turned into [sys.exit(1)]. *)
Definition load_config : LoadResult :=
  match load_config_try with
  | inr c => Loaded c
  | inl err => SystemExit 1 err
  end.

End LoadConfig.

(** The options [load_config] converts to a number, each with its
    conversion. *)
Definition numeric_ok (py_int : string -> option Z) (py_float : string -> option Q)
    (opts : list (string * string)) (key : string) (is_float : bool) : bool :=
  match get_option opts key with
  | None => true
  | Some v =>
      if is_float
      then match py_float v with Some _ => true | None => false end
      else match py_int v with Some _ => true | None => false end
  end.

Definition optional_numbers_ok (py_int : string -> option Z)
    (py_float : string -> option Q) (opts : list (string * string)) : bool :=
  numeric_ok py_int py_float opts "baudrate" false &&
  numeric_ok py_int py_float opts "serial_timeout" true &&
  numeric_ok py_int py_float opts "max_retries" false &&
  numeric_ok py_int py_float opts "log_max_size" false &&
  numeric_ok py_int py_float opts "log_backup_count" false.

(** The options [load_config] fetches, and whether each one that is
    present can be fetched: an absent option is never interpolated. *)
Definition fetched_options : list string :=
  ["serial_port"; "ip"; "port"; "baudrate"; "serial_timeout"; "max_retries";
   "log_level"; "log_file"; "log_max_size"; "log_backup_count"]%string.

Definition fetchable (f : ConfigFile) (key : string) : bool :=
  negb (has_option (AIS_options f) key
        && existsb (String.eqb key) (interpolation_fails f)).

Definition fetches_ok (f : ConfigFile) : bool :=
  forallb (fetchable f) fetched_options.

(** Sample inputs for the configuration loader: a reader of plain
    decimal numerals, and a file with the required fields only. *)
Module SampleConfig.

Definition digit (c : Ascii.ascii) : option Z :=
  let n := Z.of_nat (Ascii.nat_of_ascii c) in
  if (48 <=? n)%Z && (n <=? 57)%Z then Some (n - 48)%Z else None.

Fixpoint digits (acc : Z) (s : string) : option Z :=
  match s with
  | EmptyString => Some acc
  | String c rest =>
      match digit c with
      | Some d => digits (acc * 10 + d)%Z rest
      | None => None
      end
  end.

Definition decimal (s : string) : option Z :=
  match s with
  | EmptyString => None
  | _ => digits 0 s
  end.

Definition decimal_Q (s : string) : option Q :=
  match decimal s with
  | Some n => Some (inject_Z n)
  | None => None
  end.

Definition minimal : ConfigFile :=
  mkConfigFile true false true
    [("serial_port", "/dev/serial0"); ("ip", "192.168.1.50"); ("port", "10110")]%string
    [].

Definition loaded : AISConfig.t :=
  AISConfig.mk "/dev/serial0" "192.168.1.50" 10110 38400 2 3 "INFO" None 10485760 5.

Definition bad_baudrate : ConfigFile :=
  mkConfigFile true false true
    [("serial_port", "/dev/serial0"); ("ip", "192.168.1.50"); ("port", "10110");
     ("baudrate", "fast")]%string
    [].

(** The log file name holds a lone percent sign. *)
Definition percent_in_log_file : ConfigFile :=
  mkConfigFile true false true
    [("serial_port", "/dev/serial0"); ("ip", "192.168.1.50"); ("port", "10110");
     ("log_file", "/var/log/ais-100%.log")]%string
    ["log_file"%string].

End SampleConfig.

(** The socket followed through a trace is the manager's, if any. *)
Definition tracks (live : option sock) (s : SocketManager.t) : Prop :=
  live = None \/ live = socket s.

(** The two facts the send loop relies on. *)
Definition consumer_sound (st : System) : Prop :=
  tasks_balanced st /\ holds_invariant (socket_manager (handler st)).

(** More sample runs. *)
Module MoreSamples.

(** The send loop of a handler just started has the first record in hand. *)
Definition first_in_hand : System :=
  fst (run [ProducerPass (Sample.reads Sample.sentence_A); ConsumerGet]
           (mkSystem Sample.started AtGet)).

(** It has handed it to [send]. *)
Definition jammed : System :=
  fst (step (ConsumerSend Sample.write_ok) first_in_hand).

Definition more_work : list Action :=
  [ProducerPass (Sample.reads Sample.sentence_B); ConsumerGet;
   ConsumerSend Sample.write_ok; ConsumerGet].

(** The send loop goes round three times. *)
Definition three_rounds : list Action :=
  [ConsumerGet; ConsumerSend Sample.write_ok;
   ConsumerGet; ConsumerSend Sample.write_ok;
   ConsumerGet; ConsumerSend Sample.write_ok].

(** A send that fails and a line that arrives. *)
Definition retry_then_read : list Action :=
  [ConsumerSend Sample.write_reset; ProducerPass (Sample.reads Sample.sentence_B)].

End MoreSamples.

(** * Properties *)

#[local] Arguments Qltb : simpl never.
#[local] Arguments Qmin : simpl never.
#[local] Arguments Qmult : simpl never.
#[local] Arguments Qminus : simpl never.
#[local] Arguments float_sub : simpl never.
#[local] Arguments port_in_range : simpl never.

(** ** The backoff test *)

Lemma Qltb_true a b : Qltb a b = true <-> a < b.
Proof.
  unfold Qltb. rewrite negb_true_iff. split; intro H.
  - apply Qnot_le_lt. intro Hle. apply Qle_bool_iff in Hle. congruence.
  - destruct (Qle_bool b a) eqn:E; [|reflexivity].
    apply Qle_bool_iff in E. exfalso. exact (Qlt_not_le _ _ H E).
Qed.


(** ** One call on a manager *)

Lemma unlock_lock s :
  socket_lock s = false -> set_socket_lock false (set_socket_lock true s) = s.
Proof. destruct s; simpl; intros ->; reflexivity. Qed.

Lemma connect_lock_held e s : socket_lock s = true -> connect e s = Blocks s [].
Proof. intros Hl. unfold connect, with_socket_lock. now rewrite Hl. Qed.

Lemma send_lock_held e data s : socket_lock s = true -> send e data s = Blocks s [].
Proof. intros Hl. unfold send, with_socket_lock. now rewrite Hl. Qed.

Lemma close_lock_held e s : socket_lock s = true -> close e s = Blocks s [].
Proof. intros Hl. unfold close, with_socket_lock. now rewrite Hl. Qed.

Lemma connect_when_connected e s :
  socket_lock s = false -> connected s = true -> connect e s = Returns true s [].
Proof.
  intros Hl Hc. unfold connect, with_socket_lock. rewrite Hl.
  unfold bind, read. simpl. rewrite Hc. simpl. now rewrite unlock_lock.
Qed.

Lemma connect_throttled e s :
  socket_lock s = false -> connected s = false ->
  Qltb (float_sub (now e) (last_attempt s)) (backoff_delay s) = true ->
  connect e s = Returns false s [].
Proof.
  intros Hl Hc Ht. unfold connect, with_socket_lock. rewrite Hl.
  unfold bind, read. simpl. rewrite Hc, Ht. simpl. now rewrite unlock_lock.
Qed.

Ltac break_manager s e :=
  destruct s as [hst prt mr [h|] lk [|] la bd];
  destruct e as [nw [|] [h'|] [ | | ] sr];
  unfold connect_escapes, reaches_connect, socket_connect in *;
  simpl in *; destruct (port_in_range prt).

(** A call that gets past the backoff test makes one pass through the
    [try] block.  Unless an exception escapes it, the pass ends with one
    verdict in the log and contains at most one [connect] on a socket; it
    contains exactly one, on a socket created for it, unless closing the
    stale socket or creating the new one raises first. *)
Lemma connect_attempt_shape e s :
  socket_lock s = false -> connected s = false ->
  Qltb (float_sub (now e) (last_attempt s)) (backoff_delay s) = false ->
  connect_escapes e s = false ->
  exists b s' tr,
    connect e s = Returns b s' tr /\
    last_attempt s' = now e /\
    socket_lock s' = false /\
    connected s' = b /\
    (b = true ->
       socket s' = new_socket e /\ new_socket e <> None /\
       backoff_delay s' = RECONNECT_DELAY) /\
    (b = false ->
       backoff_delay s' = Qmin (backoff_delay s * BACKOFF_FACTOR) MAX_BACKOFF_DELAY) /\
    count is_connect_verdict tr = 1%nat /\
    (count is_sock_connect tr <= 1)%nat /\
    (b = true <->
       reaches_connect e s = true /\
       socket_connect e (SocketManager.port s) = Accepted) /\
    (reaches_connect e s = true <-> count is_sock_connect tr = 1%nat) /\
    (count is_sock_create tr <= 1)%nat.
Proof.
  intros Hl Hc Ht He. unfold connect, with_socket_lock. rewrite Hl.
  unfold bind, read. simpl. rewrite Hc. simpl. rewrite Ht.
  unfold connect_try, bind, read, emit, ret, modify, raise.
  break_manager s e; simpl in *; try discriminate;
    do 3 eexists; (split; [reflexivity|]); unfold count; simpl;
    repeat split; try congruence; try tauto; try lia; intros;
    try intuition congruence.
Qed.

(** When an exception escapes the [try] block, it leaves [connect] too:
    the lock is released, the time of the attempt is recorded, the new
    socket stays in [self.socket], and neither verdict nor delay
    follows. *)
Lemma connect_attempt_escapes e s :
  socket_lock s = false -> connected s = false ->
  Qltb (float_sub (now e) (last_attempt s)) (backoff_delay s) = false ->
  connect_escapes e s = true ->
  exists s' tr,
    connect e s = Raises s' tr /\
    last_attempt s' = now e /\
    socket_lock s' = false /\
    connected s' = false /\
    backoff_delay s' = backoff_delay s /\
    socket s' = new_socket e /\ new_socket e <> None /\
    count is_connect_verdict tr = 0%nat /\
    count is_sock_connect tr = 1%nat /\
    count is_sock_create tr = 1%nat.
Proof.
  intros Hl Hc Ht He. unfold connect, with_socket_lock. rewrite Hl.
  unfold bind, read. simpl. rewrite Hc. simpl. rewrite Ht.
  unfold connect_try, bind, read, emit, ret, modify, raise.
  break_manager s e; simpl in *; try discriminate;
    do 2 eexists; (split; [reflexivity|]); unfold count; simpl;
    repeat split; congruence.
Qed.

Lemma connect_cases e s :
  (socket_lock s = true /\ connect e s = Blocks s []) \/
  (socket_lock s = false /\ connected s = true /\ connect e s = Returns true s []) \/
  (socket_lock s = false /\ connected s = false /\
   Qltb (float_sub (now e) (last_attempt s)) (backoff_delay s) = true /\
   connect e s = Returns false s []) \/
  (socket_lock s = false /\ connected s = false /\
   Qltb (float_sub (now e) (last_attempt s)) (backoff_delay s) = false).
Proof.
  destruct (socket_lock s) eqn:Hl;
    [left; split; [reflexivity|now apply connect_lock_held]|].
  destruct (connected s) eqn:Hc; [right; left; auto using connect_when_connected|].
  destruct (Qltb (float_sub (now e) (last_attempt s)) (backoff_delay s)) eqn:Ht;
    [right; right; left; auto using connect_throttled|right; right; right; auto].
Qed.

(** [send] holds the lock when it calls [connect], and [connect] starts
    by taking the lock. *)
Lemma send_not_connected e data s :
  socket_lock s = false -> connected s = false ->
  send e data s = Blocks (set_socket_lock true s) [].
Proof.
  intros Hl Hc. unfold send, with_socket_lock. rewrite Hl.
  unfold bind at 1. unfold read at 1.
  replace (connected (set_socket_lock true s)) with false
    by (destruct s; simpl in *; congruence).
  cbn [negb]. unfold bind at 1. unfold bind at 1.
  rewrite connect_lock_held by (destruct s; reflexivity).
  reflexivity.
Qed.

Lemma send_connected e data s h :
  socket_lock s = false -> connected s = true -> socket s = Some h ->
  send e data s =
    if sendall_raises e
    then Returns false (set_connected false s)
           [SockSendall h data;
            Log WARNING (Error_sending_data_to (host s) (SocketManager.port s))]
    else Returns true s [SockSendall h data].
Proof.
  intros Hl Hc Hs. unfold send, with_socket_lock. rewrite Hl.
  destruct s as [hst prt mr so lk c la bd]; simpl in *; subst.
  destruct (sendall_raises e); reflexivity.
Qed.

Lemma send_connected_no_socket e data s :
  socket_lock s = false -> connected s = true -> socket s = None ->
  send e data s = Raises s [].
Proof.
  intros Hl Hc Hs. unfold send, with_socket_lock. rewrite Hl.
  destruct s as [hst prt mr so lk c la bd]; simpl in *; subst. reflexivity.
Qed.

Lemma send_cases e data s : send_shape e data s (send e data s).
Proof.
  destruct (socket_lock s) eqn:Hl.
  - rewrite send_lock_held by assumption. now constructor.
  - destruct (connected s) eqn:Hc.
    + destruct (socket s) as [h|] eqn:Hs.
      * rewrite (send_connected e data s h) by assumption.
        destruct (sendall_raises e) eqn:Hr; econstructor; eassumption.
      * rewrite send_connected_no_socket by assumption. now constructor.
    + rewrite send_not_connected by assumption. now constructor.
Qed.

Lemma close_no_socket e s :
  socket_lock s = false -> socket s = None -> close e s = Returns tt s [].
Proof.
  intros Hl Hs. unfold close, with_socket_lock. rewrite Hl.
  destruct s as [hst prt mr so lk c la bd]; simpl in *; subst. reflexivity.
Qed.

Lemma close_socket e s h :
  socket_lock s = false -> socket s = Some h ->
  close e s =
    Returns tt (set_socket None (set_connected false s))
      (SockClose h ::
         if close_raises e then [Log WARNING Error_closing_socket] else []).
Proof.
  intros Hl Hs. unfold close, with_socket_lock. rewrite Hl.
  destruct s as [hst prt mr so lk c la bd]; simpl in *; subst.
  destruct (close_raises e); reflexivity.
Qed.

(** The lock is left held by one call only: a [send] on a manager that
    is not connected. *)
Lemma lock_left_held c s :
  socket_lock s = false ->
  socket_lock (after_call c s) = true ->
  exists e data, c = CallSend e data /\ connected s = false.
Proof.
  intros Hl Hheld. destruct c as [e|e data|e]; simpl in Hheld.
  - exfalso.
    destruct (connect_cases e s)
      as [[H _]|[(_ & _ & E)|[(_ & _ & _ & E)|(_ & Hc & Ht)]]];
      try congruence; try (rewrite E in Hheld; simpl in Hheld; congruence).
    destruct (connect_escapes e s) eqn:Hesc.
    + destruct (connect_attempt_escapes e s Hl Hc Ht Hesc) as (s' & tr & E & _ & Hl' & _).
      rewrite E in Hheld. simpl in Hheld. congruence.
    + destruct (connect_attempt_shape e s Hl Hc Ht Hesc)
        as (b & s' & tr & E & _ & Hl' & _).
      rewrite E in Hheld. simpl in Hheld. congruence.
  - exists e, data. split; [reflexivity|].
    destruct (send_cases e data s) as [H|_ Hc|_ _ _|h _ _ _ _|h _ _ _ _];
      simpl in Hheld; congruence.
  - exfalso. destruct (socket s) as [h|] eqn:Hs.
    + rewrite (close_socket e s h Hl Hs) in Hheld. destruct s; simpl in *. congruence.
    + rewrite (close_no_socket e s Hl Hs) in Hheld. simpl in Hheld. congruence.
Qed.

(** ** The invariant *)

Lemma connect_preserves e s :
  holds_invariant s -> holds_invariant (final (connect e s)).
Proof.
  intros Hi.
  destruct (connect_cases e s)
    as [[_ ->]|[(_ & _ & ->)|[(_ & _ & _ & ->)|(Hl & Hc & Ht)]]]; trivial.
  destruct (connect_escapes e s) eqn:Hesc.
  - destruct (connect_attempt_escapes e s Hl Hc Ht Hesc)
      as (s' & tr & -> & _ & _ & Hc' & _).
    simpl. intros H. congruence.
  - destruct (connect_attempt_shape e s Hl Hc Ht Hesc)
      as (b & s' & tr & -> & _ & _ & Hb & Hok & _).
    simpl. intros Hc'. rewrite Hc' in Hb. symmetry in Hb.
    destruct (Hok Hb) as (-> & Hn & _). exact Hn.
Qed.

Lemma send_preserves e data s :
  holds_invariant s -> holds_invariant (final (send e data s)).
Proof.
  intros Hi. destruct (send_cases e data s) as [H|Hl Hc|Hl Hc Hs|h Hl Hc Hs _|h Hl Hc Hs _];
    simpl; trivial; intros H; destruct s; simpl in *; congruence.
Qed.

Lemma close_preserves e s :
  holds_invariant s -> holds_invariant (final (close e s)).
Proof.
  intros Hi.
  destruct (socket_lock s) eqn:Hl; [now rewrite close_lock_held|].
  destruct (socket s) as [h|] eqn:Hs.
  - rewrite (close_socket e s h Hl Hs). simpl. intros H.
    destruct s; simpl in *. discriminate.
  - now rewrite close_no_socket.
Qed.

Lemma after_calls_preserve calls : forall s,
  holds_invariant s -> holds_invariant (after_calls calls s).
Proof.
  induction calls as [|c calls IH]; intros s Hi; simpl; [assumption|].
  apply IH. destruct c; simpl;
    auto using connect_preserves, send_preserves, close_preserves.
Qed.

(** C9: whenever the connected flag of a manager is true its socket is not
    [None]; this holds for a manager just constructed, every call of
    [connect], [send] or [close] keeps it, however the call ends, and so
    it holds after any sequence of calls. *)
Theorem connected_manager_has_socket :
  (forall host port retries,
     holds_invariant (SocketManager.init host port retries)) /\
  (forall e s, holds_invariant s -> holds_invariant (final (connect e s))) /\
  (forall e data s, holds_invariant s -> holds_invariant (final (send e data s))) /\
  (forall e s, holds_invariant s -> holds_invariant (final (close e s))) /\
  (forall host port retries calls,
     holds_invariant (after_calls calls (SocketManager.init host port retries))).
Proof.
  assert (Hinit : forall host port retries,
             holds_invariant (SocketManager.init host port retries))
    by (intros host port retries H; discriminate H).
  split; [exact Hinit|].
  split; [exact connect_preserves|].
  split; [exact send_preserves|].
  split; [exact close_preserves|].
  intros host port retries calls. apply after_calls_preserve, Hinit.
Qed.

Lemma connected_manager_has_socket_witness :
  holds_invariant Sample.connected_manager /\
  holds_invariant (final (send Sample.write_reset Sample.sentence_A Sample.connected_manager)).
Proof.
  assert (H : holds_invariant Sample.connected_manager)
    by (intros _; vm_compute; discriminate).
  split; [exact H|].
  exact (proj1 (proj2 (proj2 connected_manager_has_socket))
           Sample.write_reset Sample.sentence_A Sample.connected_manager H).
Defined.

(** C10: a [connect] rejected by the backoff test (the time since the
    last attempt, as the code computes it, is strictly less than the
    current delay) returns [False]
    and leaves the manager exactly as it was: the last-attempt timestamp,
    the backoff delay, the socket and the connected flag are unchanged. *)
Theorem throttled_connect_changes_nothing e s :
  socket_lock s = false ->
  connected s = false ->
  float_sub (now e) (last_attempt s) < backoff_delay s ->
  connect e s = Returns false s [] /\
  last_attempt (final (connect e s)) = last_attempt s /\
  backoff_delay (final (connect e s)) = backoff_delay s /\
  socket (final (connect e s)) = socket s /\
  connected (final (connect e s)) = connected s /\
  socket_lock (final (connect e s)) = socket_lock s.
Proof.
  intros Hl Hc Ht. apply Qltb_true in Ht.
  rewrite (connect_throttled e s Hl Hc Ht). simpl. repeat split.
Qed.

Lemma throttled_connect_changes_nothing_witness :
  connect (Sample.refused_at 103) Sample.after_one_failure
    = Returns false Sample.after_one_failure [].
Proof.
  apply (throttled_connect_changes_nothing
           (Sample.refused_at 103) Sample.after_one_failure);
    reflexivity.
Defined.

(** The rounding of the difference matters to the test.  Between the
    doubles nearest to 0.1 and to 5.1 there are less than 5 seconds, but
    their difference as the code computes it is 5: with a delay of 5
    seconds the call is not rejected, it makes an attempt. *)
Lemma rounding_decides_the_throttle :
  Sample.five_and_a_tenth - Sample.tenth < 5 /\
  float_sub Sample.five_and_a_tenth Sample.tenth == 5 /\
  backoff_delay Sample.attempted_at_a_tenth == 5 /\
  last_attempt
    (final (connect (Sample.refused_at Sample.five_and_a_tenth)
              Sample.attempted_at_a_tenth))
    = Sample.five_and_a_tenth /\
  count is_sock_connect
    (events (connect (Sample.refused_at Sample.five_and_a_tenth)
               Sample.attempted_at_a_tenth))
    = 1%nat.
Proof.
  repeat split; vm_compute; reflexivity.
Qed.

(** ** Backoff *)

Lemma factor_pow_succ n :
  BACKOFF_FACTOR ^ Z.of_nat (S n) == BACKOFF_FACTOR ^ Z.of_nat n * BACKOFF_FACTOR.
Proof.
  rewrite Nat2Z.inj_succ, <- Z.add_1_r, Qpower_plus
    by (unfold BACKOFF_FACTOR; discriminate).
  reflexivity.
Qed.

Lemma factor_pow_pos n : 0 < BACKOFF_FACTOR ^ Z.of_nat n.
Proof. apply Qpower_0_lt. reflexivity. Qed.

(** One more failure takes the delay of the formula for [n] to the delay
    of the formula for [n + 1]: below the cap both multiply by the factor,
    and once the cap is reached [60 * 1.5] is cut back to 60. *)
Lemma spec_backoff_delay_step n :
  Qmin (spec_backoff_delay n * BACKOFF_FACTOR) MAX_BACKOFF_DELAY
    == spec_backoff_delay (S n).
Proof.
  unfold spec_backoff_delay. rewrite factor_pow_succ.
  pose proof (factor_pow_pos n) as Hp.
  set (p := BACKOFF_FACTOR ^ Z.of_nat n) in *.
  unfold RECONNECT_DELAY, BACKOFF_FACTOR, MAX_BACKOFF_DELAY in *.
  destruct (Q.min_spec_le (5 * p) 60) as [[Hle ->]|[Hle ->]].
  - apply Q.min_compat; [ring|reflexivity].
  - rewrite Q.min_r by lra. rewrite Q.min_r by lra. reflexivity.
Qed.

Lemma failed_attempt_effect e s :
  failed_attempt e s = true ->
  socket_lock (final (connect e s)) = false /\
  connected (final (connect e s)) = false /\
  last_attempt (final (connect e s)) = now e /\
  backoff_delay (final (connect e s)) =
    Qmin (backoff_delay s * BACKOFF_FACTOR) MAX_BACKOFF_DELAY.
Proof.
  unfold failed_attempt. rewrite andb_true_iff, negb_true_iff. intros [Ht Hr].
  destruct (connect_cases e s)
    as [[_ H]|[(_ & _ & H)|[(_ & _ & Ht' & _)|(Hl & Hc & _)]]].
  - rewrite H in Hr. discriminate.
  - rewrite H in Hr. discriminate.
  - congruence.
  - destruct (connect_escapes e s) eqn:Hesc.
    + destruct (connect_attempt_escapes e s Hl Hc Ht Hesc) as (s' & tr & E & _).
      rewrite E in Hr. discriminate.
    + destruct (connect_attempt_shape e s Hl Hc Ht Hesc)
        as (b & s' & tr & E & Hla & Hl' & Hc' & _ & Hbd & _).
      rewrite E in *. simpl. destruct b; [discriminate|]. auto.
Qed.

Lemma backoff_after_failures_from n es : forall s,
  backoff_delay s == spec_backoff_delay n ->
  consecutive_failures es s = true ->
  backoff_delay (connect_repeatedly es s)
    == spec_backoff_delay (n + List.length es).
Proof.
  revert n. induction es as [|e es IH]; intros n s Hb Hf; simpl in *.
  - now rewrite Nat.add_0_r.
  - apply andb_true_iff in Hf. destruct Hf as [Hf Hrest].
    destruct (failed_attempt_effect e s Hf) as (_ & _ & _ & Hbd).
    rewrite <- Nat.add_succ_comm. apply IH; [|assumption].
    rewrite Hbd, Hb. apply spec_backoff_delay_step.
Qed.

Lemma failures_leave_disconnected es : forall s,
  socket_lock s = false -> connected s = false ->
  consecutive_failures es s = true ->
  socket_lock (connect_repeatedly es s) = false /\
  connected (connect_repeatedly es s) = false.
Proof.
  induction es as [|e es IH]; intros s Hl Hc Hf; simpl in *; [auto|].
  apply andb_true_iff in Hf. destruct Hf as [Hf Hrest].
  destruct (failed_attempt_effect e s Hf) as (Hl' & Hc' & _). auto.
Qed.

(** C4: starting from the base delay of 5 seconds, after [N] consecutive
    connect failures the backoff delay of the manager equals
    [min(5 * 1.5^N, 60)]; and a [connect] that then succeeds sets it back
    to 5. *)
Theorem backoff_delay_after_failures es s :
  socket_lock s = false ->
  connected s = false ->
  backoff_delay s = RECONNECT_DELAY ->
  consecutive_failures es s = true ->
  backoff_delay (connect_repeatedly es s) == spec_backoff_delay (List.length es) /\
  forall e s' tr,
    connect e (connect_repeatedly es s) = Returns true s' tr ->
    backoff_delay s' = RECONNECT_DELAY.
Proof.
  intros Hl Hc Hb Hf. split.
  - apply (backoff_after_failures_from 0 es s); [|assumption].
    rewrite Hb. unfold spec_backoff_delay. simpl. reflexivity.
  - intros e s' tr E.
    destruct (failures_leave_disconnected es s Hl Hc Hf) as [Hl' Hc'].
    destruct (connect_cases e (connect_repeatedly es s))
      as [[H _]|[(_ & H & _)|[(_ & _ & _ & H)|(_ & _ & Ht)]]]; try congruence.
    destruct (connect_escapes e (connect_repeatedly es s)) eqn:Hesc.
    + destruct (connect_attempt_escapes e _ Hl' Hc' Ht Hesc) as (s1 & tr1 & E1 & _).
      congruence.
    + destruct (connect_attempt_shape e _ Hl' Hc' Ht Hesc)
        as (b & s1 & tr1 & E1 & _ & _ & _ & Hok & _).
      rewrite E in E1. injection E1 as <- <- <-. now apply Hok.
Qed.

Lemma backoff_delay_after_failures_witness :
  backoff_delay (connect_repeatedly Sample.eight_refusals Sample.fresh)
    == spec_backoff_delay 8 /\
  backoff_delay
    (final (connect (Sample.accepted_at 900)
              (connect_repeatedly Sample.eight_refusals Sample.fresh)))
    = RECONNECT_DELAY.
Proof.
  destruct (backoff_delay_after_failures Sample.eight_refusals Sample.fresh)
    as [Hformula Hreset]; try reflexivity.
  split; [exact Hformula|].
  apply (Hreset (Sample.accepted_at 900) _
           (events (connect (Sample.accepted_at 900)
                      (connect_repeatedly Sample.eight_refusals Sample.fresh)))).
  vm_compute. reflexivity.
Defined.




(** ** [send] and [close] *)

(** C6, as the code behaves: [send] on a manager that has never been
    connected calls [connect] while it holds [socket_lock]; [connect]
    waits for that same lock, so the call never returns.  Nothing is
    attempted and nothing is written, whatever the endpoint would have
    answered, and the lock stays held. *)
Theorem send_on_new_manager_never_returns e data host port retries :
  send e data (SocketManager.init host port retries)
    = Blocks (set_socket_lock true (SocketManager.init host port retries)) [].
Proof. apply send_not_connected; reflexivity. Qed.

(** On a connected manager [send] behaves as described: one [sendall],
    [True] when it goes through, and on a write error the manager is
    marked disconnected and [False] is returned without a second try. *)
Lemma send_on_connected_manager e data s h :
  socket_lock s = false -> connected s = true -> socket s = Some h ->
  exists b s',
    send e data s = Returns b s' (events (send e data s)) /\
    b = negb (sendall_raises e) /\
    connected s' = b /\
    filter is_sock_call (events (send e data s)) = [SockSendall h data].
Proof.
  intros Hl Hc Hs. rewrite (send_connected e data s h Hl Hc Hs).
  destruct (sendall_raises e); simpl; do 2 eexists;
    (split; [reflexivity|]); repeat split; try assumption.
Qed.

(** C8: [close] closes the socket the manager has, whether or not the
    manager is connected and whether or not closing raises, and leaves
    the manager without a socket and disconnected; a second [close]
    changes nothing and touches no socket. *)
Theorem close_releases_and_is_idempotent e e' s :
  socket_lock s = false ->
  holds_invariant s ->
  exists s' tr,
    close e s = Returns tt s' tr /\
    socket s' = None /\
    connected s' = false /\
    (forall h, socket s = Some h -> filter is_sock_call tr = [SockClose h]) /\
    (socket s = None -> tr = []) /\
    last_attempt s' = last_attempt s /\
    backoff_delay s' = backoff_delay s /\
    close e' s' = Returns tt s' [].
Proof.
  intros Hl Hi. destruct (socket s) as [h|] eqn:Hs.
  - rewrite (close_socket e s h Hl Hs). do 2 eexists. split; [reflexivity|].
    assert (Hl' : socket_lock (set_socket None (set_connected false s)) = false)
      by (destruct s; assumption).
    repeat split; try (destruct s; reflexivity).
    + intros h0 E. injection E as <-. destruct (close_raises e); reflexivity.
    + discriminate.
    + apply close_no_socket; [assumption|destruct s; reflexivity].
  - rewrite (close_no_socket e s Hl Hs). exists s, []. split; [reflexivity|].
    repeat split; try assumption.
    + destruct (connected s) eqn:Hc; [now elim (Hi Hc)|reflexivity].
    + discriminate.
    + now apply close_no_socket.
Qed.

Lemma close_releases_and_is_idempotent_witness :
  exists s' tr,
    close Sample.write_ok Sample.connected_manager = Returns tt s' tr /\
    socket s' = None /\ connected s' = false /\
    close Sample.write_reset s' = Returns tt s' [].
Proof.
  destruct (close_releases_and_is_idempotent
              Sample.write_ok Sample.write_reset Sample.connected_manager)
    as (s' & tr & E & Hs & Hc & _ & _ & _ & _ & Hagain).
  - reflexivity.
  - intros _. vm_compute. discriminate.
  - exists s', tr. auto.
Defined.

(** ** The queue between the two loops *)

Ltac split_matches :=
  repeat match goal with
         | |- context [match ?b with _ => _ end] => destruct b; simpl
         end.

Ltac by_cases_on_head a :=
  induction a as [|ev a IH]; [reflexivity|];
  destruct ev; simpl; split_matches; congruence.

Lemma offered_app a b : offered (a ++ b) = offered a ++ offered b.
Proof. by_cases_on_head a. Qed.

Lemma refused_app a b : refused (a ++ b) = refused a ++ refused b.
Proof. by_cases_on_head a. Qed.

Lemma enqueued_app a b : enqueued (a ++ b) = enqueued a ++ enqueued b.
Proof. by_cases_on_head a. Qed.

Lemma dequeued_app a b : dequeued (a ++ b) = dequeued a ++ dequeued b.
Proof. by_cases_on_head a. Qed.

Lemma requeues_app a b : requeues (a ++ b) = requeues a ++ requeues b.
Proof. by_cases_on_head a. Qed.

Lemma put_spec q x :
  Queue.maxsize q = MAX_QUEUE_SIZE ->
  (exists q', Queue.put q x = Some q' /\ Queue.items q' = Queue.items q ++ [x] /\
              Queue.maxsize q' = MAX_QUEUE_SIZE /\
              (Z.of_nat (List.length (Queue.items q)) < MAX_QUEUE_SIZE)%Z) \/
  (Queue.put q x = None /\ (MAX_QUEUE_SIZE <= Z.of_nat (List.length (Queue.items q)))%Z).
Proof.
  intros Hm. unfold Queue.put, Queue.full, Queue.qsize. rewrite Hm.
  change (0 <? MAX_QUEUE_SIZE)%Z with true. cbn [andb].
  destruct (Z.leb_spec MAX_QUEUE_SIZE (Z.of_nat (List.length (Queue.items q)))).
  - right. auto.
  - left. eexists. repeat split; auto.
Qed.

Lemma quiet_app a b : quiet a -> quiet b -> quiet (a ++ b).
Proof.
  unfold quiet. intros (A1 & A2 & A3 & A4 & A5) (B1 & B2 & B3 & B4 & B5).
  rewrite offered_app, requeues_app, enqueued_app, refused_app, dequeued_app.
  rewrite A1, A2, A3, A4, A5, B1, B2, B3, B4, B5. auto.
Qed.

Lemma queue_effect_quiet xs ys a tr b :
  quiet a -> quiet b -> queue_effect xs tr ys -> queue_effect xs (a ++ tr ++ b) ys.
Proof.
  unfold quiet. intros (A1 & A2 & A3 & A4 & A5) (B1 & B2 & B3 & B4 & B5) Hq.
  assert (E : offered (a ++ tr ++ b) = offered tr /\ requeues (a ++ tr ++ b) = requeues tr /\
              enqueued (a ++ tr ++ b) = enqueued tr /\ refused (a ++ tr ++ b) = refused tr /\
              dequeued (a ++ tr ++ b) = dequeued tr).
  { rewrite !offered_app, !requeues_app, !enqueued_app, !refused_app, !dequeued_app.
    rewrite A1, A2, A3, A4, A5, B1, B2, B3, B4, B5. simpl. rewrite !app_nil_r. auto. }
  destruct E as (E1 & E2 & E3 & E4 & E5).
  destruct Hq;
    [ apply qe_none | eapply qe_offer_accepted | eapply qe_offer_refused
    | eapply qe_requeue_accepted | eapply qe_requeue_refused | eapply qe_get ];
    rewrite ?E1, ?E2, ?E3, ?E4, ?E5; eassumption.
Qed.

Lemma quiet_effect xs tr : quiet tr -> queue_effect xs tr xs.
Proof. intros (A1 & A2 & A3 & A4 & A5). now apply qe_none. Qed.

Ltac quiet_now := repeat split; reflexivity.

Lemma send_quiet e data s : quiet (events (SocketManager.send e data s)).
Proof. destruct (send_cases e data s); simpl; quiet_now. Qed.

Lemma close_serial_effect r h h' tr :
  _close_serial r h = (h', tr) -> data_queue h' = data_queue h /\ quiet tr.
Proof.
  unfold _close_serial. destruct (serial_port h) as [[[|]]|]; intros E;
    injection E as <- <-; (split; [reflexivity|]); destruct r; quiet_now.
Qed.

Lemma connect_serial_effect r h :
  data_queue (final (_connect_serial r h)) = data_queue h /\
  quiet (events (_connect_serial r h)).
Proof. destruct r; (split; [reflexivity|quiet_now]). Qed.

Lemma read_and_enqueue_effect e h h' tr :
  read_and_enqueue e h = (h', tr) ->
  Queue.maxsize (data_queue h) = MAX_QUEUE_SIZE ->
  Queue.maxsize (data_queue h') = MAX_QUEUE_SIZE /\
  queue_effect (Queue.items (data_queue h)) tr (Queue.items (data_queue h')).
Proof.
  unfold read_and_enqueue. intros E Hm.
  destruct (readline e) as [[|b line]| |].
  - injection E as <- <-. split; [assumption|]. apply quiet_effect. quiet_now.
  - destruct (put_spec (data_queue h) (b :: line) Hm) as [(q' & Hp & Hi & Hm' & Hlt)|[Hp Hge]];
      rewrite Hp in E; injection E as <- <-; simpl.
    + split; [assumption|]. rewrite Hi. now eapply qe_offer_accepted.
    + split; [assumption|]. now eapply qe_offer_refused.
  - destruct (_close_serial (serial_close_raises e) h) as [h1 tr1] eqn:Ec.
    injection E as <- <-. apply close_serial_effect in Ec. destruct Ec as [Eq Hq].
    rewrite Eq. split; [assumption|]. apply quiet_effect.
    apply (quiet_app [SerialReadline; Log ERROR AIS_serial_read_error]); [quiet_now|].
    apply quiet_app; [assumption|quiet_now].
  - injection E as <- <-. split; [assumption|]. apply quiet_effect. quiet_now.
Qed.

Lemma producer_body_effect e h h' tr :
  _producer_body e h = (h', tr) ->
  Queue.maxsize (data_queue h) = MAX_QUEUE_SIZE ->
  Queue.maxsize (data_queue h') = MAX_QUEUE_SIZE /\
  queue_effect (Queue.items (data_queue h)) tr (Queue.items (data_queue h')).
Proof.
  unfold _producer_body. intros E Hm.
  destruct (match serial_port h with None => true | Some p => negb (is_open p) end).
  - destruct (connect_serial_effect (serial_open e) h) as [Eq Hq].
    destruct (_connect_serial (serial_open e) h) as [[] h1 tr1|h1 tr1|h1 tr1];
      simpl in Eq, Hq.
    + destruct (serial_port h1).
      * destruct (read_and_enqueue e h1) as [h2 tr2] eqn:Er.
        injection E as <- <-.
        apply read_and_enqueue_effect in Er; [|now rewrite Eq].
        rewrite Eq in Er. destruct Er as [Hm' He]. split; [assumption|].
        rewrite <- (app_nil_r tr2).
        apply queue_effect_quiet; [assumption|quiet_now|assumption].
      * injection E as <- <-. rewrite Eq. split; [assumption|].
        apply quiet_effect. apply quiet_app; [assumption|quiet_now].
    + injection E as <- <-. rewrite Eq. split; [assumption|].
      apply quiet_effect. apply quiet_app; [assumption|quiet_now].
    + injection E as <- <-. rewrite Eq. split; [assumption|].
      apply quiet_effect. apply quiet_app; [assumption|quiet_now].
  - now apply (read_and_enqueue_effect e).
Qed.

Lemma finish_task_effect h h' tr :
  finish_task h = (h', tr) ->
  Queue.maxsize (data_queue h') = Queue.maxsize (data_queue h) /\
  Queue.items (data_queue h') = Queue.items (data_queue h) /\ quiet tr /\
  socket_manager h' = socket_manager h.
Proof.
  unfold finish_task, Queue.task_done.
  destruct (Queue.unfinished_tasks (data_queue h) <=? 0)%Z; intros E;
    injection E as <- <-; repeat split; reflexivity.
Qed.

Lemma requeue_effect data h h' tr :
  requeue data h = (h', tr) ->
  Queue.maxsize (data_queue h) = MAX_QUEUE_SIZE ->
  Queue.maxsize (data_queue h') = MAX_QUEUE_SIZE /\
  socket_manager h' = socket_manager h /\
  ((queue_effect (Queue.items (data_queue h)) tr (Queue.items (data_queue h')) /\
    requeues tr = [data] /\ refused tr = [] /\
    Queue.items (data_queue h') = Queue.items (data_queue h) ++ [data] /\
    (Z.of_nat (List.length (Queue.items (data_queue h))) < MAX_QUEUE_SIZE)%Z) \/
   (queue_effect (Queue.items (data_queue h)) tr (Queue.items (data_queue h')) /\
    requeues tr = [data] /\ refused tr = [data] /\
    Queue.items (data_queue h') = Queue.items (data_queue h) /\
    In (Log WARNING Queue_full_dropping_data_on_send_failure) tr /\
    (MAX_QUEUE_SIZE <= Z.of_nat (List.length (Queue.items (data_queue h))))%Z)).
Proof.
  unfold requeue. intros E Hm.
  destruct (put_spec (data_queue h) data Hm) as [(q' & Hp & Hi & Hm' & Hlt)|[Hp Hge]];
    rewrite Hp in E; injection E as <- <-; simpl.
  - split; [assumption|]. split; [reflexivity|]. left. rewrite Hi.
    repeat split; try reflexivity; try assumption. now eapply qe_requeue_accepted.
  - split; [assumption|]. split; [reflexivity|]. right.
    repeat split; try reflexivity; try assumption; [|auto].
    now eapply qe_requeue_refused.
Qed.

Lemma consumer_get_effect h h' pc tr :
  _consumer_get h = (h', pc, tr) ->
  Queue.maxsize (data_queue h') = Queue.maxsize (data_queue h) /\
  queue_effect (Queue.items (data_queue h)) tr (Queue.items (data_queue h')).
Proof.
  unfold _consumer_get, Queue.get.
  destruct (Queue.items (data_queue h)) as [|x rest] eqn:Ei; intros E;
    injection E as <- <- <-; simpl; (split; [reflexivity|]).
  - rewrite Ei. apply quiet_effect. quiet_now.
  - now eapply qe_get.
Qed.

Lemma consumer_send_effect e data h h' pc tr :
  _consumer_send e data h = (h', pc, tr) ->
  Queue.maxsize (data_queue h) = MAX_QUEUE_SIZE ->
  Queue.maxsize (data_queue h') = MAX_QUEUE_SIZE /\
  queue_effect (Queue.items (data_queue h)) tr (Queue.items (data_queue h')).
Proof.
  unfold _consumer_send. intros E Hm.
  pose proof (send_quiet e data (socket_manager h)) as Hq.
  destruct (SocketManager.send e data (socket_manager h)) as [[|] sm tr0|sm tr0|sm tr0];
    simpl in Hq.
  - destruct (finish_task (set_socket_manager sm h)) as [h2 tr2] eqn:Ef.
    injection E as <- <- <-. apply finish_task_effect in Ef.
    destruct Ef as (Em & Ei & Hq2 & _). simpl in Em, Ei. rewrite Em, Ei.
    split; [assumption|]. apply quiet_effect.
    apply quiet_app; [assumption|]. apply (quiet_app [_]); [quiet_now|assumption].
  - destruct (requeue data (set_socket_manager sm h)) as [h2 tr2] eqn:Er.
    destruct (finish_task h2) as [h3 tr3] eqn:Ef.
    injection E as <- <- <-. apply finish_task_effect in Ef.
    destruct Ef as (Em & Ei & Hq3 & _).
    apply requeue_effect in Er; [|assumption]. simpl in Er.
    destruct Er as (Hm2 & _ & He).
    rewrite Em, Ei. split; [assumption|].
    assert (He' : queue_effect (Queue.items (data_queue h)) tr2 (Queue.items (data_queue h2)))
      by (destruct He as [(He & _)|(He & _)]; exact He).
    replace (tr0 ++ Log WARNING Failed_to_send_data_requeuing :: tr2 ++ tr3)
      with ((tr0 ++ [Log WARNING Failed_to_send_data_requeuing]) ++ tr2 ++ tr3)
      by (rewrite <- app_assoc; reflexivity).
    apply queue_effect_quiet; [|assumption|assumption].
    apply quiet_app; [assumption|quiet_now].
  - injection E as <- <- <-. simpl. split; [assumption|]. apply quiet_effect.
    apply quiet_app; [assumption|quiet_now].
  - injection E as <- <- <-. simpl. split; [assumption|]. now apply quiet_effect.
Qed.

Lemma step_effect a st st' tr :
  step a st = (st', tr) ->
  bound_of st = MAX_QUEUE_SIZE ->
  bound_of st' = MAX_QUEUE_SIZE /\ queue_effect (queue_of st) tr (queue_of st').
Proof.
  unfold bound_of, queue_of. destruct a as [e| |e]; simpl; intros E Hm.
  - destruct (running (handler st)).
    + destruct (_producer_body e (handler st)) as [h tr1] eqn:Ep.
      injection E as <- <-. simpl. now apply (producer_body_effect e).
    + injection E as <- <-. split; [assumption|]. apply quiet_effect. quiet_now.
  - destruct (consumer_pc st), (running (handler st));
      try (injection E as <- <-; split; [assumption|]; apply quiet_effect; quiet_now).
    destruct (_consumer_get (handler st)) as [[h pc] tr1] eqn:Eg.
    injection E as <- <-. simpl. apply consumer_get_effect in Eg.
    destruct Eg as [Em He]. rewrite Em. auto.
  - destruct (consumer_pc st) as [|data|data];
      try (injection E as <- <-; split; [assumption|]; apply quiet_effect; quiet_now).
    destruct (_consumer_send e data (handler st)) as [[h pc] tr1] eqn:Es.
    injection E as <- <-. simpl. now apply (consumer_send_effect e data _ _ pc).
Qed.

(** Nothing is lost or reordered inside the queue: what was taken out,
    followed by what is left, is what was there followed by what was let in. *)
Lemma run_conservation acts : forall st st' tr,
  run acts st = (st', tr) ->
  bound_of st = MAX_QUEUE_SIZE ->
  bound_of st' = MAX_QUEUE_SIZE /\
  dequeued tr ++ queue_of st' = queue_of st ++ enqueued tr.
Proof.
  induction acts as [|a acts IH]; simpl; intros st st' tr E Hm.
  - injection E as <- <-. simpl. rewrite app_nil_r. auto.
  - destruct (step a st) as [st1 tr1] eqn:E1.
    destruct (run acts st1) as [st2 tr2] eqn:E2.
    injection E as <- <-.
    apply step_effect in E1; [|assumption]. destruct E1 as [Hm1 He].
    destruct (IH _ _ _ E2 Hm1) as [Hm2 Hc]. split; [assumption|].
    rewrite dequeued_app, enqueued_app, <- app_assoc, Hc.
    destruct He as [? ? En ? Ed ->|x ? ? En ? Ed ->|x ? ? En ? Ed ->|x ? ? En ? Ed ->|x ? ? En ? Ed ->|x ? ? En ? Ed ->];
      rewrite En, Ed; simpl; rewrite <- ?app_assoc; reflexivity.
Qed.

Lemma run_bounded acts : forall st st' tr,
  run acts st = (st', tr) ->
  bound_of st = MAX_QUEUE_SIZE ->
  (Z.of_nat (List.length (queue_of st)) <= MAX_QUEUE_SIZE)%Z ->
  (Z.of_nat (List.length (queue_of st')) <= MAX_QUEUE_SIZE)%Z.
Proof.
  induction acts as [|a acts IH]; simpl; intros st st' tr E Hm Hb.
  - now injection E as <- <-.
  - destruct (step a st) as [st1 tr1] eqn:E1.
    destruct (run acts st1) as [st2 tr2] eqn:E2.
    injection E as <- <-.
    apply step_effect in E1; [|assumption]. destruct E1 as [Hm1 He].
    apply (IH _ _ _ E2 Hm1).
    destruct He as [? ? ? ? ? ->|x ? ? ? ? ? -> Hlt|x ? ? ? ? ? -> ?|x ? ? ? ? ? -> Hlt|x ? ? ? ? ? -> ?|x ? ? ? ? ? Hx];
      rewrite ?length_app; simpl; try lia.
    rewrite Hx in Hb. simpl in Hb. lia.
Qed.

Lemma run_accepts_all acts : forall st st' tr,
  run acts st = (st', tr) ->
  bound_of st = MAX_QUEUE_SIZE ->
  requeues tr = [] ->
  (Z.of_nat (List.length (queue_of st) + List.length (offered tr)) <= MAX_QUEUE_SIZE)%Z ->
  refused tr = [] /\ enqueued tr = offered tr.
Proof.
  induction acts as [|a acts IH]; simpl; intros st st' tr E Hm Hr Hb.
  - injection E as <- <-. auto.
  - destruct (step a st) as [st1 tr1] eqn:E1.
    destruct (run acts st1) as [st2 tr2] eqn:E2.
    injection E as <- <-.
    apply step_effect in E1; [|assumption]. destruct E1 as [Hm1 He].
    rewrite requeues_app in Hr. apply app_eq_nil in Hr. destruct Hr as [Hr1 Hr2].
    rewrite offered_app, length_app in Hb.
    rewrite refused_app, enqueued_app, offered_app.
    destruct He as [Eo ? En Ef ? Ey|x Eo ? En Ef ? Ey Hlt|x Eo ? En Ef ? Ey Hge
                   |x ? Eq ? ? ? ? ?|x ? Eq ? ? ? ? ?|x Eo ? En Ef ? Ey];
      try congruence; rewrite Eo in *; rewrite En, Ef; simpl in *.
    + apply (IH _ _ _ E2 Hm1 Hr2). rewrite Ey. lia.
    + destruct (IH _ _ _ E2 Hm1 Hr2) as [-> ->]; [|auto].
      rewrite Ey, length_app. simpl. lia.
    + unfold MAX_QUEUE_SIZE in *. lia.
    + apply (IH _ _ _ E2 Hm1 Hr2). rewrite Ey in Hb. simpl in Hb. lia.
Qed.


(** C1: in every execution of the two loops that starts with an empty
    queue of capacity 1000, in which the read loop offers at most 1000
    records and no send fails (so that the send loop never puts a record
    back), no offered record is refused, and the records the send loop
    has taken out, followed by those still queued, are the offered
    records in the order they were offered; once the queue is empty again
    the sequence taken out is the sequence offered. *)
Theorem fifo_without_loss acts st st' tr :
  run acts st = (st', tr) ->
  bound_of st = MAX_QUEUE_SIZE ->
  queue_of st = [] ->
  (Z.of_nat (List.length (offered tr)) <= MAX_QUEUE_SIZE)%Z ->
  requeues tr = [] ->
  refused tr = [] /\
  dequeued tr ++ queue_of st' = offered tr /\
  (queue_of st' = [] -> dequeued tr = offered tr).
Proof.
  intros E Hm Hq Hb Hr.
  destruct (run_accepts_all acts st st' tr E Hm Hr) as [Hf He].
  { rewrite Hq. simpl. assumption. }
  destruct (run_conservation acts st st' tr E Hm) as [_ Hc].
  rewrite Hq, He in Hc. simpl in Hc.
  repeat split; try assumption.
  intros Hq'. rewrite Hq', app_nil_r in Hc. assumption.
Qed.

Lemma fifo_without_loss_witness :
  dequeued (snd (run Sample.three_in_three_out (mkSystem Sample.forwarding AtGet)))
    = [Sample.sentence_A; Sample.sentence_B; Sample.sentence_C].
Proof.
  destruct (fifo_without_loss Sample.three_in_three_out
              (mkSystem Sample.forwarding AtGet)
              (fst (run Sample.three_in_three_out (mkSystem Sample.forwarding AtGet)))
              (snd (run Sample.three_in_three_out (mkSystem Sample.forwarding AtGet))))
    as (_ & _ & Hall).
  - apply surjective_pairing.
  - reflexivity.
  - reflexivity.
  - vm_compute. discriminate.
  - vm_compute. reflexivity.
  - rewrite Hall; vm_compute; reflexivity.
Defined.

(** C2: in every execution of the two loops the queue never holds more
    than its capacity of 1000 records; and when the read loop has a record
    to enqueue while the queue holds 1000, the [put] gives up at the end
    of its one-second wait, the record is dropped with a warning, and the
    handler, its queue included, is exactly as before. *)
Theorem channel_bounded_and_full_put_dropped :
  (forall acts st st' tr,
     run acts st = (st', tr) ->
     bound_of st = MAX_QUEUE_SIZE ->
     (Z.of_nat (List.length (queue_of st)) <= MAX_QUEUE_SIZE)%Z ->
     (Z.of_nat (List.length (queue_of st')) <= MAX_QUEUE_SIZE)%Z) /\
  (forall e h line,
     serial_is_open h = true ->
     readline e = Line line ->
     line <> [] ->
     Queue.maxsize (data_queue h) = MAX_QUEUE_SIZE ->
     Queue.qsize (data_queue h) = MAX_QUEUE_SIZE ->
     _producer_body e h =
       (h, [SerialReadline; Log DEBUG (Received_AIS_data line);
            QPut line true (Some 1) false;
            Log WARNING Queue_full_dropping_AIS_data])).
Proof.
  split; [exact run_bounded|].
  intros e h line Ho Hr Hl Hm Hs.
  unfold _producer_body, serial_is_open in *.
  destruct (serial_port h) as [[op]|]; [|discriminate]. simpl in Ho. subst op. simpl.
  unfold read_and_enqueue. rewrite Hr.
  destruct line as [|b line]; [congruence|].
  unfold Queue.put, Queue.full. rewrite Hm, Hs. reflexivity.
Qed.

Lemma channel_bounded_and_full_put_dropped_witness :
  (Z.of_nat (List.length
     (queue_of (fst (run Sample.three_in_three_out (mkSystem Sample.saturated AtGet)))))
   <= MAX_QUEUE_SIZE)%Z /\
  fst (_producer_body (Sample.reads Sample.sentence_B) Sample.saturated)
    = Sample.saturated.
Proof.
  destruct channel_bounded_and_full_put_dropped as [Hbound Hfull]. split.
  - apply (Hbound Sample.three_in_three_out (mkSystem Sample.saturated AtGet)
             (fst (run Sample.three_in_three_out (mkSystem Sample.saturated AtGet)))
             (snd (run Sample.three_in_three_out (mkSystem Sample.saturated AtGet)))).
    + apply surjective_pairing.
    + reflexivity.
    + vm_compute. discriminate.
  - rewrite (Hfull (Sample.reads Sample.sentence_B) Sample.saturated Sample.sentence_B).
    + reflexivity.
    + reflexivity.
    + reflexivity.
    + discriminate.
    + reflexivity.
    + vm_compute. reflexivity.
Defined.

(** ** What the lock does to a running handler *)

(** The first record the send loop takes out of the queue of a handler
    just started is handed to [send] on a manager that is not connected:
    the consumer thread stays inside [send], holding the manager's lock,
    and nothing is written. *)
Lemma first_record_jams_the_consumer line e :
  line <> [] ->
  exists h tr,
    run [ProducerPass (Sample.reads line); ConsumerGet; ConsumerSend e]
        (mkSystem Sample.started AtGet)
      = (mkSystem h (InSend line), tr) /\
    socket_lock (socket_manager h) = true /\
    count is_sock_call tr = 0%nat.
Proof.
  intros Hl. destruct line as [|b line]; [congruence|].
  do 2 eexists. split; [reflexivity|]. split; reflexivity.
Qed.

Ltac run_producer e h :=
  unfold _producer_body, read_and_enqueue, _connect_serial, _close_serial, Queue.put;
  destruct h as [cfg [[[|]]|] q sm r pt ct];
  destruct e as [[ | | ] [[|b line]| |] [|]]; cbn;
  try destruct (Queue.full q); cbn.

(** An action on a system whose send loop sits in [send]. *)
Lemma stuck_step a st d :
  consumer_pc st = InSend d ->
  consumer_pc (fst (step a st)) = InSend d /\
  dequeued (snd (step a st)) = [] /\
  requeues (snd (step a st)) = [] /\
  filter is_sock_call (snd (step a st)) = [] /\
  socket_manager (handler (fst (step a st))) = socket_manager (handler st).
Proof.
  intros Hpc. destruct a as [e| |e]; simpl; rewrite ?Hpc; simpl; auto.
  destruct (running (handler st)); simpl; auto.
  destruct st as [h pc]. simpl in *. subst pc.
  run_producer e h; auto.
Qed.

(** Once the send loop sits in [send] it stays there: no action takes a
    record out, gives one back or touches a socket, and the manager stays
    as it is. *)
Lemma jammed_run acts : forall st d,
  consumer_pc st = InSend d ->
  consumer_pc (fst (run acts st)) = InSend d /\
  dequeued (snd (run acts st)) = [] /\
  requeues (snd (run acts st)) = [] /\
  filter is_sock_call (snd (run acts st)) = [] /\
  socket_manager (handler (fst (run acts st))) = socket_manager (handler st).
Proof.
  induction acts as [|a acts IH]; intros st0 d Hpc; simpl; [auto|].
  destruct (stuck_step a st0 d Hpc) as (H1 & H2 & H3 & H4 & H5).
  destruct (step a st0) as [st1 tr1]. simpl in *.
  destruct (IH st1 d H1) as (I1 & I2 & I3 & I4 & I5).
  destruct (run acts st1) as [st2 tr2]. simpl in *.
  rewrite dequeued_app, requeues_app, filter_app, H2, H3, H4, I2, I3, I4.
  repeat split; congruence.
Qed.

(** No action changes the [running] flag. *)
Lemma step_keeps_running a st :
  running (handler (fst (step a st))) = running (handler st).
Proof.
  destruct a as [e| |e]; simpl.
  - destruct (running (handler st)) eqn:Hr; simpl; [|assumption].
    destruct st as [h pc]. simpl in *. revert Hr.
    run_producer e h; auto.
  - destruct (consumer_pc st); simpl; auto.
    destruct (running (handler st)) eqn:Hr; simpl; auto.
    unfold _consumer_get. destruct (Queue.get (data_queue (handler st))) as [[x q]|];
      simpl; assumption.
  - destruct (consumer_pc st) as [|data|data]; simpl; auto.
    unfold _consumer_send, finish_task, requeue.
    destruct (send e data (socket_manager (handler st))) as [[|] sm tr|sm tr|sm tr];
      simpl; auto.
    + destruct (Queue.task_done _); reflexivity.
    + destruct (Queue.put _ _); simpl; destruct (Queue.task_done _); reflexivity.
Qed.

Lemma run_keeps_running acts : forall st,
  running (handler (fst (run acts st))) = running (handler st).
Proof.
  induction acts as [|a acts IH]; intros st; simpl; [reflexivity|].
  pose proof (step_keeps_running a st) as H1.
  destruct (step a st) as [st1 tr1]. simpl in H1.
  pose proof (IH st1) as H2.
  destruct (run acts st1) as [st2 tr2]. simpl in *. congruence.
Qed.

(** A run in two parts. *)
Lemma run_app a : forall b st,
  run (a ++ b) st =
    (fst (run b (fst (run a st))), snd (run a st) ++ snd (run b (fst (run a st)))).
Proof.
  induction a as [|x a IH]; intros b st; simpl.
  - destruct (run b st); reflexivity.
  - destruct (step x st) as [st1 tr1]. rewrite IH.
    destruct (run a st1) as [st2 tr2]. simpl.
    destruct (run b st2) as [st3 tr3]. simpl. now rewrite app_assoc.
Qed.

(** A pass of the read loop has nothing to do with the manager or with the
    records the send loop handles. *)
Lemma producer_pass_apart e h :
  socket_manager (fst (_producer_body e h)) = socket_manager h /\
  dequeued (snd (_producer_body e h)) = [] /\
  requeues (snd (_producer_body e h)) = [] /\
  filter is_sock_call (snd (_producer_body e h)) = [].
Proof. run_producer e h; auto. Qed.

(** With a manager that is disconnected and whose lock is free, the send
    loop takes out at most one more record and hands it to a [send] that
    never returns: no socket is touched any more. *)
Lemma disconnected_run acts : forall st,
  connected (socket_manager (handler st)) = false ->
  socket_lock (socket_manager (handler st)) = false ->
  filter is_sock_call (snd (run acts st)) = [] /\
  requeues (snd (run acts st)) = [] /\
  (List.length (dequeued (snd (run acts st)))
     <= match consumer_pc st with AtGet => 1 | _ => 0 end)%nat.
Proof.
  induction acts as [|a acts IH]; intros st Hc Hl; simpl.
  - repeat split. destruct (consumer_pc st); simpl; lia.
  - destruct (consumer_pc st) as [|d|d] eqn:Hpc.
    3:{ destruct (jammed_run (a :: acts) st d Hpc) as (_ & J2 & J3 & J4 & _).
        simpl in J2, J3, J4. rewrite J2, J3, J4. repeat split. simpl. lia. }
    + destruct a as [e| |e]; simpl; rewrite ?Hpc.
      * destruct (running (handler st)); simpl.
        -- destruct (producer_pass_apart e (handler st)) as (P1 & P2 & P3 & P4).
           destruct (_producer_body e (handler st)) as [h tr]. simpl in *.
           specialize (IH (mkSystem h (consumer_pc st))). simpl in IH.
           rewrite P1, Hpc in IH. specialize (IH Hc Hl).
           destruct (run acts _) as [st2 tr2]. simpl in *.
           rewrite filter_app, requeues_app, dequeued_app, P2, P3, P4. exact IH.
        -- specialize (IH st Hc Hl). rewrite Hpc in IH.
           destruct (run acts st) as [st2 tr2]. exact IH.
      * destruct (running (handler st)); simpl.
        -- unfold _consumer_get.
           destruct (Queue.get (data_queue (handler st))) as [[x q]|]; simpl.
           ++ specialize (IH (mkSystem (set_data_queue q (handler st)) (AtSend x)) Hc Hl).
              destruct (run acts _) as [st2 tr2]. simpl in *.
              destruct IH as (I1 & I2 & I3). repeat split; auto. lia.
           ++ specialize (IH (mkSystem (handler st) AtGet) Hc Hl).
              destruct (run acts _) as [st2 tr2]. simpl in *. exact IH.
        -- specialize (IH st Hc Hl). rewrite Hpc in IH.
           destruct (run acts st) as [st2 tr2]. exact IH.
      * specialize (IH st Hc Hl). rewrite Hpc in IH.
        destruct (run acts st) as [st2 tr2]. exact IH.
    + destruct a as [e| |e]; simpl; rewrite ?Hpc.
      * destruct (running (handler st)); simpl.
        -- destruct (producer_pass_apart e (handler st)) as (P1 & P2 & P3 & P4).
           destruct (_producer_body e (handler st)) as [h tr]. simpl in *.
           specialize (IH (mkSystem h (consumer_pc st))). simpl in IH.
           rewrite P1, Hpc in IH. specialize (IH Hc Hl).
           destruct (run acts _) as [st2 tr2]. simpl in *.
           rewrite filter_app, requeues_app, dequeued_app, P2, P3, P4. exact IH.
        -- specialize (IH st Hc Hl). rewrite Hpc in IH.
           destruct (run acts st) as [st2 tr2]. exact IH.
      * specialize (IH st Hc Hl). rewrite Hpc in IH.
        destruct (run acts st) as [st2 tr2]. exact IH.
      * unfold _consumer_send. rewrite send_not_connected by assumption. simpl.
        destruct (jammed_run acts
                    (mkSystem (set_socket_manager
                                 (set_socket_lock true (socket_manager (handler st)))
                                 (handler st)) (InSend d)) d eq_refl)
          as (_ & J2 & J3 & J4 & _).
        destruct (run acts _) as [st2 tr2]. simpl in *.
        rewrite J2, J3, J4. repeat split. simpl. lia.
Qed.

(** With the lock held by the consumer thread, [stop] gets as far as
    closing the serial port and then waits for the lock for ever: no
    socket is touched, the manager stays as it is and the last line of
    [stop] is never logged. *)
Lemma stop_waits_for_a_held_lock e h :
  running h = true ->
  socket_lock (socket_manager h) = true ->
  exists h' tr,
    stop e h = Blocks h' tr /\
    running h' = false /\
    socket_manager h' = socket_manager h /\
    filter is_sock_call tr = [] /\
    ~ In (Log INFO AIS_handler_stopped) tr.
Proof.
  intros Hr Hl. unfold stop. rewrite Hr. cbn [negb].
  unfold _close_serial.
  destruct h as [cfg sp q sm r pt ct]. cbn in Hl |- *.
  destruct e as [pa ca scr senv]. cbn.
  destruct sp as [[[|]]|]; cbn; rewrite (close_lock_held _ _ Hl);
    do 2 eexists; (split; [reflexivity|]);
    (split; [reflexivity|]); (split; [reflexivity|]);
    destruct pt as [pt|], ct as [ct|], pa, ca, scr; cbn;
    (split; [reflexivity|]); intuition discriminate.
Qed.

(** C3, as the code behaves: when [send] returns [False] for the record
    the send loop has taken out, the loop does give that record back to
    the queue, once, and goes back to the head of the loop; but the
    record is never sent again, and neither are the records queued ahead
    of it.  [send] returns [False] only after it has marked the manager
    disconnected, and the next [send] then calls [connect] while holding
    the lock [connect] waits for.  So in every continuation no call is
    made on a socket, nothing is given back any more, and the send loop
    takes out at most one more record: the head of the records that were
    queued, if there were any. *)
Theorem retried_record_is_never_sent e data st sm tr0 acts :
  consumer_pc st = AtSend data ->
  send e data (socket_manager (handler st)) = Returns false sm tr0 ->
  consumer_pc (fst (step (ConsumerSend e) st)) = AtGet /\
  requeues (snd (step (ConsumerSend e) st)) = [data] /\
  connected (socket_manager (handler (fst (step (ConsumerSend e) st)))) = false /\
  filter is_sock_call (snd (run acts (fst (step (ConsumerSend e) st)))) = [] /\
  requeues (snd (run acts (fst (step (ConsumerSend e) st)))) = [] /\
  (List.length (dequeued (snd (run acts (fst (step (ConsumerSend e) st))))) <= 1)%nat /\
  (bound_of st = MAX_QUEUE_SIZE -> queue_of st <> [] ->
     exists rest,
       queue_of st = dequeued (snd (run acts (fst (step (ConsumerSend e) st)))) ++ rest).
Proof.
  intros Hpc Hs.
  destruct (step (ConsumerSend e) st) as [st1 tr1] eqn:E. cbn [fst snd].
  assert (Hsm : sm = set_connected false (socket_manager (handler st)) /\
                socket_lock (socket_manager (handler st)) = false).
  { destruct (send_cases e data (socket_manager (handler st)))
      as [Hl|Hl Hc|Hl Hc Hso|h Hl Hc Hso _|h Hl Hc Hso _]; try discriminate Hs.
    injection Hs as <- _. auto. }
  destruct Hsm as [-> Hlock].
  pose proof (send_quiet e data (socket_manager (handler st))) as Hq0.
  rewrite Hs in Hq0. simpl in Hq0. destruct Hq0 as (P1 & P2 & P3 & P4 & P5).
  simpl in E. rewrite Hpc in E. unfold _consumer_send in E. rewrite Hs in E.
  destruct (requeue data (set_socket_manager
                            (set_connected false (socket_manager (handler st)))
                            (handler st))) as [h2 tr2] eqn:Er.
  destruct (finish_task h2) as [h3 tr3] eqn:Ef.
  injection E as <- <-. cbn [consumer_pc handler].
  assert (Hm3 : socket_manager h3 = set_connected false (socket_manager (handler st))).
  { unfold finish_task in Ef. unfold requeue in Er.
    destruct (Queue.put _ data); injection Er as <- _;
      destruct (Queue.task_done _); injection Ef as <- _; reflexivity. }
  assert (Hreq : requeues (tr0 ++ [Log WARNING Failed_to_send_data_requeuing] ++ tr2 ++ tr3)
                 = [data]).
  { rewrite requeues_app, P2. simpl. rewrite requeues_app.
    unfold finish_task in Ef. unfold requeue in Er.
    destruct (Queue.put _ data); injection Er as <- <-;
      destruct (Queue.task_done _); injection Ef as <- <-; reflexivity. }
  split; [reflexivity|]. split; [exact Hreq|].
  assert (Hc3 : connected (socket_manager h3) = false)
    by (rewrite Hm3; reflexivity).
  assert (Hl3 : socket_lock (socket_manager h3) = false)
    by (rewrite Hm3; exact Hlock).
  split; [exact Hc3|].
  destruct (disconnected_run acts (mkSystem h3 AtGet) Hc3 Hl3) as (D1 & D2 & D3).
  cbn [consumer_pc] in D3.
  split; [exact D1|]. split; [exact D2|]. split; [exact D3|].
  intros Hm Hne.
  assert (Hq3 : bound_of (mkSystem h3 AtGet) = MAX_QUEUE_SIZE /\
                exists tl, queue_of (mkSystem h3 AtGet) = queue_of st ++ tl).
  { unfold bound_of, queue_of in *. cbn [handler].
    unfold finish_task in Ef. unfold requeue, Queue.put in Er.
    cbn [data_queue set_socket_manager] in Er.
    destruct (Queue.full (data_queue (handler st))).
    - injection Er as <- _.
      destruct (Queue.task_done _) as [q'|] eqn:Et; injection Ef as <- _.
      + unfold Queue.task_done in Et. cbn in Et |- *.
        destruct (_ <=? 0)%Z; [discriminate Et|]. injection Et as <-. cbn.
        split; [assumption|]. exists []. now rewrite app_nil_r.
      + cbn. split; [assumption|]. exists []. now rewrite app_nil_r.
    - injection Er as <- _.
      destruct (Queue.task_done _) as [q'|] eqn:Et; injection Ef as <- _.
      + unfold Queue.task_done in Et. cbn in Et |- *.
        destruct (_ <=? 0)%Z; [discriminate Et|]. injection Et as <-. cbn.
        split; [assumption|]. now exists [data].
      + cbn. split; [assumption|]. now exists [data]. }
  destruct Hq3 as [Hm3' [tl Hq3]].
  destruct (run acts (mkSystem h3 AtGet)) as [st2 tr4] eqn:Erun.
  cbn [fst snd] in *.
  apply run_conservation in Erun; [|exact Hm3']. destruct Erun as [_ Hcons].
  rewrite Hq3 in Hcons.
  destruct (dequeued tr4) as [|x [|y l]]; [now exists (queue_of st)| |simpl in D3; lia].
  destruct (queue_of st) as [|z rest]; [congruence|].
  simpl in Hcons. injection Hcons as -> _. now exists rest.
Qed.

Lemma retried_record_is_never_sent_witness :
  queue_of (fst (step (ConsumerSend Sample.write_reset) Sample.holding_A))
    = [Sample.sentence_B; Sample.sentence_C; Sample.sentence_A] /\
  filter is_sock_call
    (snd (run MoreSamples.three_rounds
            (fst (step (ConsumerSend Sample.write_reset) Sample.holding_A)))) = [] /\
  dequeued
    (snd (run MoreSamples.three_rounds
            (fst (step (ConsumerSend Sample.write_reset) Sample.holding_A))))
    = [Sample.sentence_B].
Proof.
  split; [vm_compute; reflexivity|].
  destruct (retried_record_is_never_sent
              Sample.write_reset Sample.sentence_A Sample.holding_A
              (final (send Sample.write_reset Sample.sentence_A
                        (socket_manager (handler Sample.holding_A))))
              (events (send Sample.write_reset Sample.sentence_A
                         (socket_manager (handler Sample.holding_A))))
              MoreSamples.three_rounds)
    as (_ & _ & _ & Hsock & _ & _ & _).
  - reflexivity.
  - vm_compute. reflexivity.
  - split; [exact Hsock|]. vm_compute. reflexivity.
Defined.

(** C7, as the code behaves: once the send loop of a started handler
    has taken its first record, [stop] never returns.  The manager is
    not connected at that point, so the send loop sits in [send] with the
    manager's lock held, for ever; [stop] clears [running], joins the
    threads and closes the serial port, and then waits for that lock in
    [socket_manager.close()].  The manager is not closed, no socket call
    is made and "AIS handler stopped" is never logged. *)
Theorem stop_after_the_first_record_never_returns cfg b line close_raises e acts se :
  let first := b :: line in
  let st :=
    fst (run ([ProducerPass (mkProducerEnv Opens (Line first) close_raises);
               ConsumerGet; ConsumerSend e] ++ acts)
             (mkSystem (fst (start (AISHandler.init cfg))) AtGet)) in
  running (handler st) = true /\
  consumer_pc st = InSend first /\
  socket_lock (socket_manager (handler st)) = true /\
  exists h' tr,
    stop se (handler st) = Blocks h' tr /\
    running h' = false /\
    socket_manager h' = socket_manager (handler st) /\
    filter is_sock_call tr = [] /\
    ~ In (Log INFO AIS_handler_stopped) tr.
Proof.
  intros first st. subst st. rewrite run_app. cbn [fst].
  set (st3 := fst (run [_; _; _] _)).
  assert (H3 : consumer_pc st3 = InSend first /\ running (handler st3) = true /\
               socket_lock (socket_manager (handler st3)) = true)
    by (repeat split; reflexivity).
  destruct H3 as (Hpc & Hr & Hl).
  destruct (jammed_run acts st3 first Hpc) as (J1 & _ & _ & _ & J5).
  assert (Hr' : running (handler (fst (run acts st3))) = true)
    by (rewrite run_keeps_running; exact Hr).
  assert (Hl' : socket_lock (socket_manager (handler (fst (run acts st3)))) = true)
    by (rewrite J5; exact Hl).
  split; [exact Hr'|]. split; [exact J1|]. split; [exact Hl'|].
  exact (stop_waits_for_a_held_lock se _ Hr' Hl').
Qed.

(** * Further properties of the code *)

(** ** The manager over sequences of calls *)

(** What a call does to the delay: nothing, reset it, or grow it. *)
Lemma delay_after_call c s :
  backoff_delay (after_call c s) = backoff_delay s \/
  backoff_delay (after_call c s) = RECONNECT_DELAY \/
  backoff_delay (after_call c s)
    = Qmin (backoff_delay s * BACKOFF_FACTOR) MAX_BACKOFF_DELAY.
Proof.
  destruct c as [e|e data|e]; simpl.
  - destruct (connect_cases e s)
      as [[_ ->]|[(_ & _ & ->)|[(_ & _ & _ & ->)|(Hl & Hc & Ht)]]]; auto.
    destruct (connect_escapes e s) eqn:Hesc.
    + destruct (connect_attempt_escapes e s Hl Hc Ht Hesc)
        as (s' & tr & -> & _ & _ & _ & Hsame & _).
      left. exact Hsame.
    + destruct (connect_attempt_shape e s Hl Hc Ht Hesc)
        as (b & s' & tr & -> & _ & _ & _ & Hok & Hko & _).
      simpl. destruct b; [right; left; now apply Hok|right; right; now apply Hko].
  - left. destruct (send_cases e data s); destruct s; reflexivity.
  - left. destruct (socket_lock s) eqn:Hl; [now rewrite close_lock_held|].
    destruct (socket s) as [h|] eqn:Hs.
    + rewrite (close_socket e s h Hl Hs). destruct s; reflexivity.
    + now rewrite close_no_socket.
Qed.

Lemma delay_in_range_step d :
  RECONNECT_DELAY <= d -> d <= MAX_BACKOFF_DELAY ->
  RECONNECT_DELAY <= Qmin (d * BACKOFF_FACTOR) MAX_BACKOFF_DELAY /\
  Qmin (d * BACKOFF_FACTOR) MAX_BACKOFF_DELAY <= MAX_BACKOFF_DELAY /\
  d <= Qmin (d * BACKOFF_FACTOR) MAX_BACKOFF_DELAY.
Proof.
  unfold RECONNECT_DELAY, BACKOFF_FACTOR, MAX_BACKOFF_DELAY. intros Hlo Hhi.
  split; [|split].
  - apply Q.min_glb; lra.
  - apply Q.le_min_r.
  - apply Q.min_glb; lra.
Qed.

Lemma delay_in_range_preserved calls : forall s,
  delay_in_range s -> delay_in_range (after_calls calls s).
Proof.
  induction calls as [|c calls IH]; intros s Hr; simpl; [assumption|].
  apply IH. destruct Hr as [Hlo Hhi]. unfold delay_in_range.
  destruct (delay_after_call c s) as [ -> | [ -> | -> ] ].
  - auto.
  - unfold RECONNECT_DELAY, MAX_BACKOFF_DELAY. split; lra.
  - destruct (delay_in_range_step _ Hlo Hhi) as (H1 & H2 & _). auto.
Qed.

(** X1: whatever calls of [connect], [send] and [close] are made on a
    manager, in whatever order and with whatever answers from the network,
    its backoff delay stays between the base of 5 seconds and the cap of
    60 seconds. *)
Theorem backoff_delay_stays_in_range calls host port retries :
  delay_in_range (after_calls calls (SocketManager.init host port retries)).
Proof.
  apply delay_in_range_preserved.
  unfold delay_in_range. cbn [SocketManager.init backoff_delay].
  unfold RECONNECT_DELAY, MAX_BACKOFF_DELAY. split; lra.
Qed.

(** The delays a manager can reach are those of the formula, for which
    the products of the source are exact. *)
Lemma reachable_delay_is_of_the_formula calls : forall s,
  (exists n, backoff_delay s == spec_backoff_delay n) ->
  exists n, backoff_delay (after_calls calls s) == spec_backoff_delay n.
Proof.
  induction calls as [|c calls IH]; intros s [n Hn]; simpl; [eauto|].
  apply IH. destruct (delay_after_call c s) as [ -> | [ -> | -> ] ].
  - eauto.
  - exists 0%nat. unfold spec_backoff_delay. simpl. reflexivity.
  - exists (S n). rewrite Hn. apply spec_backoff_delay_step.
Qed.

(** X2: on a manager used through its methods only, after a connect
    failure at time [t] that raised the delay to [min(1.5 * d, 60)], a
    [connect] called when the clock shows less than that delay more than
    [t] (by the difference the code computes) returns [False] at once and
    leaves the manager exactly as the failure left it. *)
Theorem failed_attempt_postpones_the_next calls host port retries e1 e2 :
  let s := after_calls calls (SocketManager.init host port retries) in
  failed_attempt e1 s = true ->
  float_sub (now e2) (now e1)
    < Qmin (backoff_delay s * BACKOFF_FACTOR) MAX_BACKOFF_DELAY ->
  connect e2 (final (connect e1 s)) = Returns false (final (connect e1 s)) [].
Proof.
  intros s Hf Hlt.
  destruct (failed_attempt_effect e1 s Hf) as (Hl & Hc & Hla & Hbd).
  apply connect_throttled; try assumption.
  apply Qltb_true. rewrite Hla, Hbd. assumption.
Qed.

Lemma failed_attempt_postpones_the_next_witness :
  connect (Sample.refused_at 107) Sample.after_one_failure
    = Returns false Sample.after_one_failure [].
Proof.
  apply (failed_attempt_postpones_the_next
           [] "192.168.1.50"%string 10110%Z 3%Z
           (Sample.refused_at 100) (Sample.refused_at 107)).
  - vm_compute. reflexivity.
  - reflexivity.
Defined.

(** X3: in every state [send] leaves the socket, the last-attempt time
    and the delay of the manager as they were, and the only socket call
    it can make is one [sendall] of the given data on the manager's
    socket: it never creates, connects or closes a socket and never
    writes twice. *)
Theorem send_only_ever_writes e data s :
  socket (final (send e data s)) = socket s /\
  last_attempt (final (send e data s)) = last_attempt s /\
  backoff_delay (final (send e data s)) = backoff_delay s /\
  (filter is_sock_call (events (send e data s)) = [] \/
   exists h, socket s = Some h /\
             filter is_sock_call (events (send e data s)) = [SockSendall h data]).
Proof.
  destruct (send_cases e data s) as [H|Hl Hc|Hl Hc Hs|h Hl Hc Hs _|h Hl Hc Hs _];
    simpl; (repeat split; try (destruct s; reflexivity)); eauto.
Qed.

(** X4: when [connect] on a disconnected manager returns [True], a
    [send] that follows writes the data, whole and once, on the socket
    that [connect] created; it returns [True], or on a write error marks
    the manager disconnected and returns [False]. *)
Theorem connect_then_send_delivers e1 e2 data s s1 tr1 :
  connected s = false ->
  connect e1 s = Returns true s1 tr1 ->
  exists h,
    new_socket e1 = Some h /\
    send e2 data s1 =
      if sendall_raises e2
      then Returns false (set_connected false s1)
             [SockSendall h data;
              Log WARNING (Error_sending_data_to (host s1) (SocketManager.port s1))]
      else Returns true s1 [SockSendall h data].
Proof.
  intros Hc E.
  destruct (connect_cases e1 s)
    as [[_ H]|[(_ & H & _)|[(_ & _ & _ & H)|(Hl & _ & Ht)]]]; try congruence.
  assert (Hesc : connect_escapes e1 s = false).
  { destruct (connect_escapes e1 s) eqn:Hesc; [|reflexivity].
    destruct (connect_attempt_escapes e1 s Hl Hc Ht Hesc) as (s' & tr & E' & _).
    congruence. }
  destruct (connect_attempt_shape e1 s Hl Hc Ht Hesc)
    as (b & s' & tr & E' & _ & Hl' & Hc' & Hok & _).
  rewrite E in E'. injection E' as <- <- <-.
  destruct (Hok eq_refl) as (Hs & Hn & _).
  destruct (new_socket e1) as [h|] eqn:Hnew; [|congruence].
  exists h. split; [reflexivity|]. now apply send_connected.
Qed.

Lemma connect_then_send_delivers_witness :
  send Sample.write_ok Sample.sentence_A Sample.connected_manager
    = Returns true Sample.connected_manager [SockSendall 2%nat Sample.sentence_A].
Proof.
  destruct (connect_then_send_delivers
              (Sample.accepted_at 100) Sample.write_ok Sample.sentence_A
              Sample.fresh Sample.connected_manager
              (events (connect (Sample.accepted_at 100) Sample.fresh)))
    as (h & Hnew & E).
  - reflexivity.
  - vm_compute. reflexivity.
  - injection Hnew as <-. exact E.
Defined.

Lemma track_sockets_app a : forall live b,
  track_sockets live (a ++ b) =
    match track_sockets live a with
    | Some l => track_sockets l b
    | None => None
    end.
Proof.
  induction a as [|ev a IH]; intros live b; [reflexivity|].
  destruct ev as [| |[h|]| | | | | | | | | | | |]; simpl; try apply IH.
  destruct live; [reflexivity|apply IH].
Qed.

Lemma connect_tracks e s live :
  tracks live s ->
  exists live',
    track_sockets live (events (connect e s)) = Some live' /\
    tracks live' (final (connect e s)).
Proof.
  intros Hlive.
  destruct (connect_cases e s)
    as [[_ ->]|[(_ & _ & ->)|[(_ & _ & _ & ->)|(Hl & Hc & Ht)]]];
    try (exists live; split; [reflexivity|assumption]).
  unfold connect, with_socket_lock. rewrite Hl.
  unfold bind, read. simpl. rewrite Hc. simpl. rewrite Ht.
  unfold connect_try, bind, read, emit, ret, modify, raise.
  unfold tracks in *.
  break_manager s e; simpl in *; try discriminate;
    destruct Hlive as [-> | ->]; simpl; rewrite ?Nat.eqb_refl;
    eexists; (split; [reflexivity|]); simpl; auto.
Qed.

Lemma send_tracks e data s live :
  tracks live s ->
  track_sockets live (events (send e data s)) = Some live /\
  tracks live (final (send e data s)).
Proof.
  intros Hlive. unfold tracks in *.
  destruct (send_cases e data s); simpl; (split; [reflexivity|]);
    destruct s; simpl in *; assumption.
Qed.

Lemma close_tracks e s live :
  tracks live s ->
  exists live',
    track_sockets live (events (close e s)) = Some live' /\
    tracks live' (final (close e s)).
Proof.
  intros Hlive. unfold tracks in *.
  destruct (socket_lock s) eqn:Hl.
  { rewrite close_lock_held by assumption. exists live. auto. }
  destruct (socket s) as [h|] eqn:Hs.
  - rewrite (close_socket e s h Hl Hs). exists None. simpl.
    split; [|auto].
    destruct Hlive as [-> | ->]; rewrite ?Nat.eqb_refl;
      destruct (close_raises e); reflexivity.
  - rewrite (close_no_socket e s Hl Hs). exists live. simpl. rewrite Hs. auto.
Qed.

Lemma calls_track calls : forall s live,
  tracks live s ->
  exists live',
    track_sockets live (calls_events calls s) = Some live' /\
    tracks live' (after_calls calls s).
Proof.
  induction calls as [|c calls IH]; intros s live Hlive; simpl.
  - exists live. auto.
  - assert (Hstep : exists l, track_sockets live (call_events c s) = Some l /\
                              tracks l (after_call c s)).
    { destruct c as [e|e data|e]; simpl.
      - now apply connect_tracks.
      - exists live. now apply send_tracks.
      - now apply close_tracks. }
    destruct Hstep as (l & E & Hl).
    rewrite track_sockets_app, E. now apply IH.
Qed.

(** X5: over any sequence of calls on a manager no socket is created
    while an earlier one is still open: [connect] closes the socket the
    manager holds before it creates the next.  The one socket that may
    be open at the end is the one the manager holds. *)
Theorem one_socket_at_a_time calls host port retries :
  exists live,
    track_sockets None (calls_events calls (SocketManager.init host port retries))
      = Some live /\
    (live = None \/
     live = socket (after_calls calls (SocketManager.init host port retries))).
Proof. apply calls_track. left. reflexivity. Qed.

(** X6: a call that finds the lock free leaves it held in one case
    only, a [send] on a manager that is not connected; every other call,
    and every [send] on a connected manager, releases it. *)
Theorem lock_held_only_after_disconnected_send c s :
  socket_lock s = false ->
  (socket_lock (after_call c s) = true <->
   exists e data, c = CallSend e data /\ connected s = false).
Proof.
  intros Hl. split.
  - now apply lock_left_held.
  - intros (e & data & -> & Hc). simpl.
    rewrite send_not_connected by assumption. destruct s; reflexivity.
Qed.

Lemma lock_held_only_after_disconnected_send_witness :
  socket_lock (after_call (CallSend Sample.write_ok Sample.sentence_A) Sample.fresh)
    = true.
Proof.
  apply (lock_held_only_after_disconnected_send
           (CallSend Sample.write_ok Sample.sentence_A) Sample.fresh).
  - reflexivity.
  - exists Sample.write_ok, Sample.sentence_A. split; reflexivity.
Defined.

(** ** The read loop *)

(** The program never holds a port object that is closed: [__init__]
    sets [serial_port] to [None], [_close_serial] resets it to [None],
    and a pass of the read loop does not produce one. *)
Lemma pass_leaves_no_closed_port e h :
  serial_port h <> Some (mkSerial false) ->
  serial_port (fst (_producer_body e h)) <> Some (mkSerial false).
Proof.
  run_producer e h; intros H; try discriminate; try assumption.
Qed.

(** Were there one, an open attempt that raises something other than
    [SerialException] would leave it in place. *)
Lemma closed_port_survives_a_rejected_open :
  serial_port
    (fst (_producer_body
            (mkProducerEnv Open_other_exception (Line Sample.sentence_A) false)
            (set_serial_port (Some (mkSerial false)) Sample.started)))
    = Some (mkSerial false).
Proof. reflexivity. Qed.

(** X7: a pass of the read loop touches only the serial port and the
    tail of the queue.  It leaves the configuration, the socket manager,
    the [running] flag and the thread handles alone; afterwards the
    serial port is either absent or open (the one exception: a port
    object that was there but closed stays as it was when [serial.Serial]
    raises something other than [SerialException]); and the queue is
    either unchanged or longer by the one non-empty line just read. *)
Theorem producer_pass_footprint e h :
  let h' := fst (_producer_body e h) in
  config h' = config h /\
  socket_manager h' = socket_manager h /\
  running h' = running h /\
  producer_thread h' = producer_thread h /\
  consumer_thread h' = consumer_thread h /\
  (serial_port h' = None \/ serial_port h' = Some (mkSerial true) \/
   (serial_open e = Open_other_exception /\
    serial_port h = Some (mkSerial false) /\ serial_port h' = serial_port h)) /\
  Queue.maxsize (data_queue h') = Queue.maxsize (data_queue h) /\
  (data_queue h' = data_queue h \/
   exists line,
     readline e = Line line /\ line <> [] /\
     Queue.items (data_queue h') = Queue.items (data_queue h) ++ [line]).
Proof.
  run_producer e h; repeat split; auto;
    right; eexists; (split; [reflexivity|split; [discriminate|reflexivity]]).
Qed.

(** X8: a pass of the read loop that meets a fault (the port cannot be
    opened, or [readline] raises) enqueues nothing and ends with a sleep,
    of 5 seconds or of 1 second.  When the port cannot be opened the pass
    does not read at all: after a [SerialException] it logs the failed
    connection and sleeps 5 seconds; after any other exception of
    [serial.Serial] it logs an unexpected error, sleeps 1 second and
    leaves the port as it was. *)
Theorem faulty_pass_sleeps_and_enqueues_nothing e h :
  pass_meets_fault e h = true ->
  data_queue (fst (_producer_body e h)) = data_queue h /\
  offered (snd (_producer_body e h)) = [] /\
  (last (snd (_producer_body e h)) SerialReadline = Sleep RECONNECT_DELAY \/
   last (snd (_producer_body e h)) SerialReadline = Sleep 1) /\
  (needs_open h = true -> serial_open e = Open_SerialException ->
     snd (_producer_body e h)
       = [SerialOpen false; Log ERROR Failed_to_connect_to_serial_port;
          Sleep RECONNECT_DELAY]) /\
  (needs_open h = true -> serial_open e = Open_other_exception ->
     snd (_producer_body e h)
       = [SerialOpen false; Log ERROR Unexpected_error_in_producer; Sleep 1] /\
     serial_port (fst (_producer_body e h)) = serial_port h).
Proof.
  unfold pass_meets_fault, needs_open, open_fails.
  run_producer e h; intros Hf; try discriminate Hf;
    repeat split; auto; try discriminate.
Qed.

Lemma faulty_pass_sleeps_and_enqueues_nothing_witness :
  snd (_producer_body
         (mkProducerEnv Open_other_exception (Line Sample.sentence_A) false)
         Sample.started)
    = [SerialOpen false; Log ERROR Unexpected_error_in_producer; Sleep 1].
Proof.
  destruct (faulty_pass_sleeps_and_enqueues_nothing
              (mkProducerEnv Open_other_exception (Line Sample.sentence_A) false)
              Sample.started)
    as (_ & _ & _ & _ & Hother).
  - reflexivity.
  - apply Hother; reflexivity.
Defined.

(** ** The two loops together *)

(** X9: in every execution of the two loops, sends failing or not,
    every put is either accepted or refused, and the records taken out,
    those still queued and those refused add up to the records that were
    queued at the start, offered by the read loop or given back by the
    send loop: a record leaves the queue only through [get]. *)
Theorem records_accounted_for acts : forall st st' tr,
  run acts st = (st', tr) ->
  bound_of st = MAX_QUEUE_SIZE ->
  (List.length (offered tr) + List.length (requeues tr)
     = List.length (enqueued tr) + List.length (refused tr))%nat /\
  (List.length (dequeued tr) + List.length (queue_of st') + List.length (refused tr)
     = List.length (queue_of st) + List.length (offered tr)
         + List.length (requeues tr))%nat.
Proof.
  induction acts as [|a acts IH]; simpl; intros st st' tr E Hm.
  - injection E as <- <-. simpl. lia.
  - destruct (step a st) as [st1 tr1] eqn:E1.
    destruct (run acts st1) as [st2 tr2] eqn:E2.
    injection E as <- <-.
    apply step_effect in E1; [|assumption]. destruct E1 as [Hm1 He].
    destruct (IH _ _ _ E2 Hm1) as [H1 H2].
    rewrite offered_app, requeues_app, enqueued_app, refused_app, dequeued_app,
      !length_app.
    destruct He as [Eo Er En Ef Ed Ey|x Eo Er En Ef Ed Ey _|x Eo Er En Ef Ed Ey _
                   |x Eo Er En Ef Ed Ey _|x Eo Er En Ef Ed Ey _|x Eo Er En Ef Ed Ey];
      rewrite Eo, Er, En, Ef, Ed; rewrite Ey in *;
      rewrite ?length_app in *; simpl in *; lia.
Qed.

Lemma records_accounted_for_witness :
  (List.length (dequeued (snd (run MoreSamples.retry_then_read Sample.holding_A)))
   + List.length (queue_of (fst (run MoreSamples.retry_then_read Sample.holding_A)))
   + List.length (refused (snd (run MoreSamples.retry_then_read Sample.holding_A)))
   = 2 + 1 + 1)%nat.
Proof.
  destruct (records_accounted_for MoreSamples.retry_then_read Sample.holding_A
              (fst (run MoreSamples.retry_then_read Sample.holding_A))
              (snd (run MoreSamples.retry_then_read Sample.holding_A)))
    as [_ Hsum].
  - apply surjective_pairing.
  - reflexivity.
  - rewrite Hsum. vm_compute. reflexivity.
Defined.

(** X10: when the send loop hands a record to [send] while the manager
    is not connected, the loop stops there for good.  The step itself
    makes no call on a socket and no put; in every continuation the send
    loop takes nothing more out of the queue, gives nothing back, no
    socket is touched, and the manager's lock stays held. *)
Theorem disconnected_send_jams_the_consumer e d st acts :
  consumer_pc st = AtSend d ->
  socket_lock (socket_manager (handler st)) = false ->
  connected (socket_manager (handler st)) = false ->
  consumer_pc (fst (step (ConsumerSend e) st)) = InSend d /\
  snd (step (ConsumerSend e) st) = [] /\
  queue_of (fst (step (ConsumerSend e) st)) = queue_of st /\
  consumer_pc (fst (run acts (fst (step (ConsumerSend e) st)))) = InSend d /\
  dequeued (snd (run acts (fst (step (ConsumerSend e) st)))) = [] /\
  requeues (snd (run acts (fst (step (ConsumerSend e) st)))) = [] /\
  filter is_sock_call (snd (run acts (fst (step (ConsumerSend e) st)))) = [] /\
  socket_lock (socket_manager (handler (fst (run acts (fst (step (ConsumerSend e) st))))))
    = true.
Proof.
  intros Hpc Hl Hc.
  assert (Hstep : step (ConsumerSend e) st =
                    (mkSystem (set_socket_manager
                                 (set_socket_lock true (socket_manager (handler st)))
                                 (handler st)) (InSend d), [])).
  { simpl. rewrite Hpc. unfold _consumer_send.
    rewrite send_not_connected by assumption. reflexivity. }
  rewrite Hstep. cbn [fst snd].
  split; [reflexivity|]. split; [reflexivity|]. split; [reflexivity|].
  set (st1 := mkSystem _ _).
  assert (Hgen : forall acts st0,
             consumer_pc st0 = InSend d ->
             consumer_pc (fst (run acts st0)) = InSend d /\
             dequeued (snd (run acts st0)) = [] /\
             requeues (snd (run acts st0)) = [] /\
             filter is_sock_call (snd (run acts st0)) = [] /\
             socket_manager (handler (fst (run acts st0)))
               = socket_manager (handler st0)).
  { clear. induction acts as [|a acts IH]; intros st0 Hpc; simpl; [auto|].
    destruct (stuck_step a st0 d Hpc) as (H1 & H2 & H3 & H4 & H5).
    destruct (step a st0) as [st1 tr1]. simpl in *.
    destruct (IH st1 H1) as (I1 & I2 & I3 & I4 & I5).
    destruct (run acts st1) as [st2 tr2]. simpl in *.
    rewrite dequeued_app, requeues_app, filter_app, H2, H3, H4, I2, I3, I4.
    repeat split; congruence. }
  destruct (Hgen acts st1 eq_refl) as (G1 & G2 & G3 & G4 & G5).
  repeat split; try assumption.
  rewrite G5. subst st1. simpl. destruct (socket_manager (handler st)); reflexivity.
Qed.

Lemma disconnected_send_jams_the_consumer_witness :
  consumer_pc
    (fst (run MoreSamples.more_work
            (fst (step (ConsumerSend Sample.write_ok) MoreSamples.first_in_hand))))
    = InSend Sample.sentence_A.
Proof.
  destruct (disconnected_send_jams_the_consumer
              Sample.write_ok Sample.sentence_A MoreSamples.first_in_hand
              MoreSamples.more_work)
    as (_ & _ & _ & Hstuck & _).
  - reflexivity.
  - reflexivity.
  - reflexivity.
  - exact Hstuck.
Defined.

Lemma consumer_sound_step a st :
  consumer_sound st ->
  consumer_sound (fst (step a st)) /\
  filter is_unexpected_consumer_error (snd (step a st)) = [].
Proof.
  unfold consumer_sound, tasks_balanced, queue_of. intros [Hb Hi].
  destruct a as [e| |e]; simpl.
  - destruct (running (handler st)); simpl; [|auto].
    destruct st as [h pc]. simpl in *.
    run_producer e h; simpl in *; (split; [split|]); auto;
      rewrite ?length_app; simpl; lia.
  - destruct (consumer_pc st) eqn:Hpc; simpl; rewrite ?Hpc; auto.
    destruct (running (handler st)); simpl; rewrite ?Hpc; auto.
    unfold _consumer_get, Queue.get.
    destruct (Queue.items (data_queue (handler st))) as [|x rest] eqn:Ei; simpl;
      rewrite ?Hpc, ?Ei; auto.
    simpl in *. split; [split|]; auto. lia.
  - destruct (consumer_pc st) as [|data|data] eqn:Hpc; simpl; rewrite ?Hpc; auto.
    unfold _consumer_send.
    pose proof (send_preserves e data _ Hi) as Hi'.
    destruct (send_cases e data (socket_manager (handler st)))
      as [Hl|Hl Hc|Hl Hc Hs|h Hl Hc Hs _|h Hl Hc Hs _]; simpl in Hi' |- *.
    + auto.
    + split; [split|]; auto.
    + now elim (Hi Hc).
    + unfold finish_task, Queue.task_done. simpl.
      destruct (Z.leb_spec (Queue.unfinished_tasks (data_queue (handler st))) 0);
        simpl in *; [lia|]. split; [split|]; auto. lia.
    + unfold requeue, Queue.put. simpl.
      destruct (Queue.full (data_queue (handler st))); simpl;
        unfold finish_task, Queue.task_done; simpl.
      * destruct (Z.leb_spec (Queue.unfinished_tasks (data_queue (handler st))) 0);
          simpl in *; [lia|]. split; [split|]; auto. lia.
      * destruct (Z.leb_spec (Queue.unfinished_tasks (data_queue (handler st)) + 1) 0);
          simpl in *; [lia|]. split; [split|]; auto.
        rewrite length_app. simpl. lia.
Qed.

(** X11: as long as the counter of unfinished tasks equals the number
    of records queued or in the send loop's hands, and the manager that
    says it is connected has a socket, every execution keeps both facts,
    and the send loop's handler for unexpected errors is never entered:
    [task_done] is never called once too often and [send] never meets a
    missing socket. *)
Theorem consumer_bookkeeping_never_fails acts : forall st,
  tasks_balanced st ->
  holds_invariant (socket_manager (handler st)) ->
  tasks_balanced (fst (run acts st)) /\
  holds_invariant (socket_manager (handler (fst (run acts st)))) /\
  filter is_unexpected_consumer_error (snd (run acts st)) = [].
Proof.
  induction acts as [|a acts IH]; intros st Hb Hi; simpl; [auto|].
  destruct (consumer_sound_step a st (conj Hb Hi)) as [[Hb1 Hi1] Hq1].
  destruct (step a st) as [st1 tr1]. simpl in *.
  destruct (IH st1 Hb1 Hi1) as (Hb2 & Hi2 & Hq2).
  destruct (run acts st1) as [st2 tr2]. simpl in *.
  rewrite filter_app, Hq1, Hq2. auto.
Qed.

Lemma consumer_bookkeeping_never_fails_witness :
  tasks_balanced
    (fst (run Sample.three_in_three_out (mkSystem Sample.forwarding AtGet))) /\
  filter is_unexpected_consumer_error
    (snd (run Sample.three_in_three_out (mkSystem Sample.forwarding AtGet))) = [].
Proof.
  destruct (consumer_bookkeeping_never_fails Sample.three_in_three_out
              (mkSystem Sample.forwarding AtGet))
    as (Hb & _ & Hq).
  - reflexivity.
  - intros _. vm_compute. discriminate.
  - split; [exact Hb|exact Hq].
Defined.

(** X16: when [send] returns [False] for the record the send loop has
    taken out, the loop makes exactly one put, a non-blocking one, of that
    same record, takes nothing out, and goes back to the head of the
    loop.  With the queue at capacity the record is dropped with a warning
    and the queue is unchanged; otherwise the record goes to the tail of
    the queue. *)
Theorem failed_send_requeues_once_at_tail e data st sm tr0 st1 tr1 :
  consumer_pc st = AtSend data ->
  send e data (socket_manager (handler st)) = Returns false sm tr0 ->
  bound_of st = MAX_QUEUE_SIZE ->
  step (ConsumerSend e) st = (st1, tr1) ->
  consumer_pc st1 = AtGet /\
  requeues tr1 = [data] /\
  offered tr1 = [] /\
  dequeued tr1 = [] /\
  ((MAX_QUEUE_SIZE <= Z.of_nat (List.length (queue_of st)))%Z ->
     queue_of st1 = queue_of st /\ refused tr1 = [data] /\
     In (Log WARNING Queue_full_dropping_data_on_send_failure) tr1) /\
  ((Z.of_nat (List.length (queue_of st)) < MAX_QUEUE_SIZE)%Z ->
     queue_of st1 = queue_of st ++ [data] /\ refused tr1 = []).
Proof.
  unfold bound_of, queue_of. intros Hpc Hs Hm E.
  simpl in E. rewrite Hpc in E. unfold _consumer_send in E. rewrite Hs in E.
  destruct (requeue data (set_socket_manager sm (handler st))) as [h2 tr2] eqn:Er.
  destruct (finish_task h2) as [h3 tr3] eqn:Ef.
  injection E as <- <-. simpl.
  apply finish_task_effect in Ef. destruct Ef as (Em3 & Ei3 & (Q1 & Q2 & Q3 & Q4 & Q5) & _).
  apply requeue_effect in Er; [|assumption]. simpl in Er. destruct Er as (Hm2 & _ & Hcases).
  pose proof (send_quiet e data (socket_manager (handler st))) as Hq0.
  rewrite Hs in Hq0. simpl in Hq0. destruct Hq0 as (P1 & P2 & P3 & P4 & P5).
  assert (Hreq : requeues (tr0 ++ Log WARNING Failed_to_send_data_requeuing :: tr2 ++ tr3)
                 = requeues tr2).
  { rewrite requeues_app, P2. simpl. rewrite requeues_app, Q2. apply app_nil_r. }
  assert (Hoff : offered (tr0 ++ Log WARNING Failed_to_send_data_requeuing :: tr2 ++ tr3)
                 = offered tr2).
  { rewrite offered_app, P1. simpl. rewrite offered_app, Q1. apply app_nil_r. }
  assert (Href : refused (tr0 ++ Log WARNING Failed_to_send_data_requeuing :: tr2 ++ tr3)
                 = refused tr2).
  { rewrite refused_app, P4. simpl. rewrite refused_app, Q4. apply app_nil_r. }
  assert (Hdeq : dequeued (tr0 ++ Log WARNING Failed_to_send_data_requeuing :: tr2 ++ tr3)
                 = dequeued tr2).
  { rewrite dequeued_app, P5. simpl. rewrite dequeued_app, Q5. apply app_nil_r. }
  rewrite Hreq, Hoff, Href, Hdeq, Ei3.
  assert (Hoff2 : offered tr2 = []).
  { destruct Hcases as [(He & Hr & _)|(He & Hr & _)]; destruct He; congruence. }
  assert (Hdeq2 : dequeued tr2 = []).
  { destruct Hcases as [(He & Hr & _)|(He & Hr & _)]; destruct He; congruence. }
  destruct Hcases as [(_ & Hr & Hf & Hi & Hlt)|(_ & Hr & Hf & Hi & Hw & Hge)].
  - split; [reflexivity|]. do 3 (split; [assumption|]).
    split; [intros Hge; lia|]. intros _. split; assumption.
  - split; [reflexivity|]. do 3 (split; [assumption|]).
    split; [|intros Hlt; lia]. intros _. do 2 (split; [assumption|]).
    apply in_or_app. right. right. apply in_or_app. left. assumption.
Qed.

Lemma failed_send_requeues_once_at_tail_witness :
  queue_of (fst (step (ConsumerSend Sample.write_reset) Sample.holding_A))
    = [Sample.sentence_B; Sample.sentence_C; Sample.sentence_A].
Proof.
  destruct (failed_send_requeues_once_at_tail
              Sample.write_reset Sample.sentence_A Sample.holding_A
              (final (send Sample.write_reset Sample.sentence_A
                        (socket_manager (handler Sample.holding_A))))
              (events (send Sample.write_reset Sample.sentence_A
                         (socket_manager (handler Sample.holding_A))))
              (fst (step (ConsumerSend Sample.write_reset) Sample.holding_A))
              (snd (step (ConsumerSend Sample.write_reset) Sample.holding_A)))
    as (_ & _ & _ & _ & _ & Hroom).
  - reflexivity.
  - vm_compute. reflexivity.
  - reflexivity.
  - apply surjective_pairing.
  - destruct Hroom as (Htail & _); [vm_compute; reflexivity|].
    rewrite Htail. reflexivity.
Defined.

(** ** Start and stop *)

(** X12: [start] is idempotent: after a [start] the handler is running
    and a second [start] does nothing, and [start] touches neither the
    queue, nor the manager, nor the serial port.  On a stopped handler
    with nothing open, [start] followed by [stop] gives the handler back
    as it was, thread handles apart, after joining the threads that are
    alive, without any call on a serial port or a socket. *)
Theorem start_is_idempotent_and_stop_undoes_it h :
  (start (fst (start h)) = (fst (start h), []) /\
   running (fst (start h)) = true /\
   data_queue (fst (start h)) = data_queue h /\
   socket_manager (fst (start h)) = socket_manager h /\
   serial_port (fst (start h)) = serial_port h) /\
  (forall e,
     running h = false ->
     socket_lock (socket_manager h) = false ->
     serial_is_open h = false ->
     socket (socket_manager h) = None ->
     stop e (fst (start h)) =
       Returns tt (set_threads (Some AIS_Producer) (Some AIS_Consumer) h)
         ([Log INFO Stopping_AIS_handler]
            ++ (if producer_is_alive e then [ThreadJoin AIS_Producer 5] else [])
            ++ (if consumer_is_alive e then [ThreadJoin AIS_Consumer 5] else [])
            ++ [Log INFO AIS_handler_stopped])).
Proof.
  split.
  - unfold start. destruct (running h) eqn:Hr; simpl; rewrite ?Hr; auto.
  - intros e Hr Hl Ho Hs. unfold serial_is_open in Ho.
    destruct h as [cfg sp q sm r pt ct].
    destruct sm as [hst prt mr so lk c la bd]. cbn in Hr, Hl, Ho, Hs. subst r lk so.
    destruct sp as [[[|]]|]; try discriminate Ho;
      destruct e as [[|] [|] scr senv]; reflexivity.
Qed.

Lemma start_is_idempotent_and_stop_undoes_it_witness :
  stop Sample.stop_env (fst (start (AISHandler.init Sample.config))) =
    Returns tt
      (set_threads (Some AIS_Producer) (Some AIS_Consumer)
         (AISHandler.init Sample.config))
      [Log INFO Stopping_AIS_handler;
       ThreadJoin AIS_Producer 5; ThreadJoin AIS_Consumer 5;
       Log INFO AIS_handler_stopped].
Proof.
  destruct (start_is_idempotent_and_stop_undoes_it (AISHandler.init Sample.config))
    as [_ Hstop].
  apply (Hstop Sample.stop_env); reflexivity.
Defined.

(** X13: [stop] on a running handler whose manager's lock is held (by a
    send loop that sits in [send]) never returns.  By then it has cleared
    [running], joined the live threads and closed the serial port; the
    socket is not closed, the manager is untouched and the final log line
    is not written. *)
Theorem stop_never_returns_while_lock_held e h :
  running h = true ->
  socket_lock (socket_manager h) = true ->
  exists h',
    stop e h =
      Blocks h'
        ([Log INFO Stopping_AIS_handler]
           ++ join_if_alive (producer_thread h) (producer_is_alive e)
           ++ join_if_alive (consumer_thread h) (consumer_is_alive e)
           ++ closed_serial_events e h) /\
    running h' = false /\
    serial_is_open h' = false /\
    socket_manager h' = socket_manager h /\
    data_queue h' = data_queue h.
Proof.
  intros Hr Hl. unfold stop. rewrite Hr. cbn [negb].
  unfold _close_serial, closed_serial_events, serial_is_open.
  destruct h as [cfg sp q sm r pt ct]. cbn in Hl |- *.
  destruct sp as [[[|]]|]; cbn; rewrite (close_lock_held _ _ Hl);
    eexists; (split; [rewrite <- ?app_assoc, ?app_nil_r; reflexivity|]);
    cbn; repeat split.
Qed.

Lemma stop_never_returns_while_lock_held_witness :
  exists h',
    stop Sample.stop_env (handler MoreSamples.jammed) =
      Blocks h'
        [Log INFO Stopping_AIS_handler;
         ThreadJoin AIS_Producer 5; ThreadJoin AIS_Consumer 5; SerialClose] /\
    running h' = false.
Proof.
  destruct (stop_never_returns_while_lock_held
              Sample.stop_env (handler MoreSamples.jammed))
    as (h' & E & Hr & _).
  - reflexivity.
  - reflexivity.
  - exists h'. split; [exact E|exact Hr].
Defined.

(** X17: [stop] on a handler that is not running returns at once and
    changes nothing.  On a running handler whose manager's lock is free
    (the send loop has not taken a record yet)
    it clears [running], joins the producer thread and then the consumer
    thread, each with a timeout of 5 seconds if the thread is alive, then
    closes the serial port and then the manager's socket; afterwards the
    handler is not running, the serial port is not open, the manager has
    no socket and is disconnected, the queue is untouched, and a second
    [stop] changes nothing. *)
Theorem stop_is_idempotent_and_closes e e' h :
  (running h = false -> stop e h = Returns tt h []) /\
  (running h = true ->
   socket_lock (socket_manager h) = false ->
   holds_invariant (socket_manager h) ->
   exists h',
     stop e h =
       Returns tt h'
         ([Log INFO Stopping_AIS_handler]
            ++ join_if_alive (producer_thread h) (producer_is_alive e)
            ++ join_if_alive (consumer_thread h) (consumer_is_alive e)
            ++ closed_serial_events e h
            ++ closed_socket_events e h
            ++ [Log INFO AIS_handler_stopped]) /\
     running h' = false /\
     serial_is_open h' = false /\
     socket (socket_manager h') = None /\
     connected (socket_manager h') = false /\
     data_queue h' = data_queue h /\
     stop e' h' = Returns tt h' []).
Proof.
  split.
  - intros Hr. unfold stop. now rewrite Hr.
  - intros Hr Hl Hi. unfold stop. rewrite Hr. cbn [negb].
    unfold _close_serial, closed_serial_events, closed_socket_events, serial_is_open.
    destruct h as [cfg sp q sm r pt ct]. cbn in Hl, Hi |- *.
    assert (Hc : socket sm = None -> connected sm = false).
    { intros Hs. destruct (connected sm) eqn:Hc; [now elim (Hi Hc)|reflexivity]. }
    destruct sp as [[[|]]|]; cbn;
      destruct (socket sm) as [s|] eqn:Hs;
      rewrite ?(close_socket _ _ s Hl Hs), ?(close_no_socket _ _ Hl Hs);
      eexists; (split; [rewrite <- ?app_assoc; reflexivity|]);
      cbn; rewrite ?Hs; repeat split; auto.
Qed.

Lemma stop_is_idempotent_and_closes_witness :
  exists h',
    stop Sample.stop_env Sample.forwarding =
      Returns tt h'
        [Log INFO Stopping_AIS_handler;
         ThreadJoin AIS_Producer 5; ThreadJoin AIS_Consumer 5;
         SerialClose; SockClose 2%nat; Log INFO AIS_handler_stopped] /\
    running h' = false /\
    stop Sample.stop_env h' = Returns tt h' [].
Proof.
  destruct (stop_is_idempotent_and_closes
              Sample.stop_env Sample.stop_env Sample.forwarding) as [_ Hrun].
  destruct Hrun as (h' & E & Hr & _ & _ & _ & _ & Hagain).
  - reflexivity.
  - reflexivity.
  - intros _. vm_compute. discriminate.
  - exists h'. split; [exact E|]. split; [exact Hr|exact Hagain].
Defined.

(** ** Loading the configuration *)

#[local] Arguments String.eqb : simpl never.

Section LoadConfigFacts.

Variable py_int : string -> option Z.
Variable py_float : string -> option Q.

Section OneFile.

Variable f : ConfigFile.

Lemma fetches_ok_all :
  fetches_ok f = true <-> forall key, In key fetched_options -> fetchable f key = true.
Proof. unfold fetches_ok. apply forallb_forall. Qed.

Lemma fetch_present key value :
  get_option (AIS_options f) key = Some value ->
  fetch f key = Some (if fetchable f key then inr value
                      else inl (Interpolation_error key)).
Proof.
  intros E. unfold fetch, fetchable, has_option. rewrite E. cbn.
  now destruct (existsb (String.eqb key) (interpolation_fails f)).
Qed.

Lemma fetch_absent key :
  get_option (AIS_options f) key = None ->
  fetch f key = None /\ fetchable f key = true.
Proof.
  intros E. unfold fetch, fetchable, has_option. now rewrite E.
Qed.

Lemma get_required_inr key value :
  get_required f key = inr value <->
  get_option (AIS_options f) key = Some value /\ fetchable f key = true.
Proof.
  unfold get_required.
  destruct (get_option (AIS_options f) key) as [v|] eqn:E.
  - rewrite (fetch_present _ _ E). destruct (fetchable f key); split.
    + intros H. injection H as ->. auto.
    + intros [H _]. injection H as ->. reflexivity.
    + discriminate.
    + intros [_ H]. discriminate H.
  - destruct (fetch_absent _ E) as [-> _]. split; [discriminate|intros [H _]; discriminate H].
Qed.

Lemma get_converted_inr {A} (conv : string -> option A) key fallback a :
  get_converted f conv key fallback = inr a <->
  fetchable f key = true /\
  match get_option (AIS_options f) key with
  | Some value => conv value = Some a
  | None => a = fallback
  end.
Proof.
  unfold get_converted.
  destruct (get_option (AIS_options f) key) as [v|] eqn:E.
  - rewrite (fetch_present _ _ E). destruct (fetchable f key); cbn; unfold convert.
    + destruct (conv v) as [a'|]; split.
      * intros H. injection H as ->. auto.
      * intros [_ H]. injection H as ->. reflexivity.
      * discriminate.
      * intros [_ H]. discriminate H.
    + split; [discriminate|intros [H _]; discriminate H].
  - destruct (fetch_absent _ E) as [-> ->]. split.
    + intros H. injection H as ->. auto.
    + intros [_ ->]. reflexivity.
Qed.

Lemma get_with_fallback_inr {A} (wrap : string -> A) key fallback a :
  get_with_fallback f wrap key fallback = inr a <->
  fetchable f key = true /\
  a = match get_option (AIS_options f) key with
      | Some value => wrap value
      | None => fallback
      end.
Proof.
  unfold get_with_fallback.
  destruct (get_option (AIS_options f) key) as [v|] eqn:E.
  - rewrite (fetch_present _ _ E). destruct (fetchable f key); cbn; split.
    + intros H. injection H as ->. auto.
    + intros [_ ->]. reflexivity.
    + discriminate.
    + intros [H _]. discriminate H.
  - destruct (fetch_absent _ E) as [-> ->]. split.
    + intros H. injection H as ->. auto.
    + intros [_ ->]. reflexivity.
Qed.


Lemma build_config_inr c :
  build_config py_int py_float f = inr c <->
  get_required f "serial_port" = inr (AISConfig.serial_port c) /\
  get_required f "ip" = inr (AISConfig.ip c) /\
  (exists text, get_required f "port" = inr text /\
                py_int text = Some (AISConfig.port c)) /\
  get_converted f py_int "baudrate" 38400%Z = inr (AISConfig.baudrate c) /\
  get_converted f py_float "serial_timeout" 2 = inr (AISConfig.serial_timeout c) /\
  get_converted f py_int "max_retries" 3%Z = inr (AISConfig.max_retries c) /\
  get_with_fallback f (fun v => v) "log_level" "INFO"%string
    = inr (AISConfig.log_level c) /\
  get_with_fallback f Some "log_file" None = inr (AISConfig.log_file c) /\
  get_converted f py_int "log_max_size" (10 * 1024 * 1024)%Z
    = inr (AISConfig.log_max_size c) /\
  get_converted f py_int "log_backup_count" 5%Z
    = inr (AISConfig.log_backup_count c).
Proof.
  unfold build_config, and_then. split.
  - destruct (get_required f "serial_port") as [?|v1]; [intros H; discriminate H|].
    destruct (get_required f "ip") as [?|v2]; [intros H; discriminate H|].
    destruct (get_required f "port") as [?|v3]; [intros H; discriminate H|].
    unfold convert at 1. destruct (py_int v3) as [n3|] eqn:E3; [|intros H; discriminate H].
    destruct (get_converted f py_int "baudrate" 38400%Z) as [?|v4]; [intros H; discriminate H|].
    destruct (get_converted f py_float "serial_timeout" 2) as [?|v5]; [intros H; discriminate H|].
    destruct (get_converted f py_int "max_retries" 3%Z) as [?|v6]; [intros H; discriminate H|].
    destruct (get_with_fallback f (fun v => v) "log_level" "INFO"%string) as [?|v7]; [intros H; discriminate H|].
    destruct (get_with_fallback f Some "log_file" None) as [?|v8]; [intros H; discriminate H|].
    destruct (get_converted f py_int "log_max_size" (10 * 1024 * 1024)%Z) as [?|v9]; [intros H; discriminate H|].
    destruct (get_converted f py_int "log_backup_count" 5%Z) as [?|v10]; [intros H; discriminate H|].
    intros H. injection H as <-. cbn. repeat split; eauto.
  - intros (-> & -> & (text & -> & Hp) & -> & -> & -> & -> & -> & -> & ->).
    unfold convert. rewrite Hp. destruct c; reflexivity.
Qed.

Lemma load_config_loaded c :
  load_config py_int py_float f = Loaded c <->
  path_exists f = true /\ read_raises f = false /\ has_section_AIS f = true /\
  build_config py_int py_float f = inr c.
Proof.
  unfold load_config, load_config_try.
  destruct (path_exists f), (read_raises f), (has_section_AIS f); cbn [negb];
    try (split; [intros H; discriminate H|intros (? & ? & ? & _); discriminate]).
  destruct (first_missing (AIS_options f) required_fields) as [field|] eqn:Em.
  - split; [intros H; discriminate H|]. intros (_ & _ & _ & Hb).
    apply build_config_inr in Hb.
    destruct Hb as (H1 & H2 & (text & H3 & _) & _).
    apply get_required_inr in H1, H2, H3.
    unfold required_fields, first_missing, has_option in Em.
    destruct H1 as [H1 _], H2 as [H2 _], H3 as [H3 _].
    rewrite H1, H2, H3 in Em. discriminate Em.
  - destruct (build_config py_int py_float f) as [err|c'].
    + split; [intros H; discriminate H|intros (_ & _ & _ & H); discriminate H].
    + split.
      * intros H. injection H as ->. auto.
      * intros (_ & _ & _ & H). injection H as ->. reflexivity.
Qed.


Lemma int_option_converts key fallback a :
  get_converted f py_int key fallback = inr a ->
  numeric_ok py_int py_float (AIS_options f) key false = true.
Proof.
  intros H. apply get_converted_inr in H. destruct H as [_ H]. unfold numeric_ok.
  destruct (get_option (AIS_options f) key); [now rewrite H|reflexivity].
Qed.

Lemma float_option_converts key fallback a :
  get_converted f py_float key fallback = inr a ->
  numeric_ok py_int py_float (AIS_options f) key true = true.
Proof.
  intros H. apply get_converted_inr in H. destruct H as [_ H]. unfold numeric_ok.
  destruct (get_option (AIS_options f) key); [now rewrite H|reflexivity].
Qed.

Lemma int_option_is_read key fallback :
  fetchable f key = true ->
  numeric_ok py_int py_float (AIS_options f) key false = true ->
  exists a, get_converted f py_int key fallback = inr a.
Proof.
  unfold numeric_ok. intros Hf H.
  destruct (get_option (AIS_options f) key) as [v|] eqn:E.
  - destruct (py_int v) as [a|] eqn:Ea; [|discriminate H].
    exists a. apply get_converted_inr. rewrite E. auto.
  - exists fallback. apply get_converted_inr. rewrite E. auto.
Qed.

Lemma float_option_is_read key fallback :
  fetchable f key = true ->
  numeric_ok py_int py_float (AIS_options f) key true = true ->
  exists a, get_converted f py_float key fallback = inr a.
Proof.
  unfold numeric_ok. intros Hf H.
  destruct (get_option (AIS_options f) key) as [v|] eqn:E.
  - destruct (py_float v) as [a|] eqn:Ea; [|discriminate H].
    exists a. apply get_converted_inr. rewrite E. auto.
  - exists fallback. apply get_converted_inr. rewrite E. auto.
Qed.

End OneFile.

(** X14: a configuration that [load_config] returns carries the
    [serial_port] and [ip] of the file as they are written and the
    [port] converted by [int]; every optional setting the file does not
    give has its default (38400 baud, a 2 second serial timeout, 3
    retries, log level INFO, no log file, 10 MiB logs, 5 backups). *)
Theorem load_config_values f c :
  load_config py_int py_float f = Loaded c ->
  let opts := AIS_options f in
  path_exists f = true /\ read_raises f = false /\ has_section_AIS f = true /\
  get_option opts "serial_port" = Some (AISConfig.serial_port c) /\
  get_option opts "ip" = Some (AISConfig.ip c) /\
  (exists text, get_option opts "port" = Some text /\
                py_int text = Some (AISConfig.port c)) /\
  (get_option opts "baudrate" = None -> AISConfig.baudrate c = 38400%Z) /\
  (get_option opts "serial_timeout" = None -> AISConfig.serial_timeout c = 2) /\
  (get_option opts "max_retries" = None -> AISConfig.max_retries c = 3%Z) /\
  (get_option opts "log_level" = None -> AISConfig.log_level c = "INFO"%string) /\
  AISConfig.log_file c = get_option opts "log_file" /\
  (get_option opts "log_max_size" = None -> AISConfig.log_max_size c = 10485760%Z) /\
  (get_option opts "log_backup_count" = None -> AISConfig.log_backup_count c = 5%Z).
Proof.
  intros E opts. apply load_config_loaded in E.
  destruct E as (Hp & Hr & Hs & Hb). apply build_config_inr in Hb.
  destruct Hb as (H1 & H2 & (text & H3 & Hint) & H4 & H5 & H6 & H7 & H8 & H9 & H10).
  apply get_required_inr in H1, H2, H3.
  apply get_converted_inr in H4, H5, H6, H9, H10.
  apply get_with_fallback_inr in H7, H8.
  destruct H1 as [H1 _], H2 as [H2 _], H3 as [H3 _], H4 as [_ H4], H5 as [_ H5],
    H6 as [_ H6], H7 as [_ H7], H8 as [_ H8], H9 as [_ H9], H10 as [_ H10].
  fold opts in H1, H2, H3, H4, H5, H6, H7, H8, H9, H10.
  do 5 (split; [assumption|]).
  split; [exists text; auto|].
  split; [intros E; rewrite E in H4; exact H4|].
  split; [intros E; rewrite E in H5; exact H5|].
  split; [intros E; rewrite E in H6; exact H6|].
  split; [intros E; rewrite E in H7; exact H7|].
  split; [rewrite H8; now destruct (get_option opts "log_file")|].
  split; [intros E; rewrite E in H9; exact H9|].
  intros E; rewrite E in H10; exact H10.
Qed.


(** X15: [load_config] returns a configuration exactly when the path
    exists, the file reads without error, it has a section [AIS] with
    [serial_port], [ip] and a [port] that [int] accepts, every numeric
    option that is present converts, and every option that is present,
    of the ten the loader reads, can be fetched (its interpolation does
    not fail).  A numeric option that is present but malformed is fatal,
    its fallback is not used.  In every other case the process exits,
    always with code 1. *)
Theorem load_config_succeeds_iff f :
  let opts := AIS_options f in
  ((exists c, load_config py_int py_float f = Loaded c) <->
   path_exists f = true /\ read_raises f = false /\ has_section_AIS f = true /\
   has_option opts "serial_port" = true /\
   has_option opts "ip" = true /\
   (exists text port, get_option opts "port" = Some text /\ py_int text = Some port) /\
   optional_numbers_ok py_int py_float opts = true /\
   fetches_ok f = true) /\
  (forall code err, load_config py_int py_float f = SystemExit code err -> code = 1%Z).
Proof.
  intros opts. split; [split|].
  - intros [c E]. apply load_config_loaded in E.
    destruct E as (Hp & Hr & Hs & Hb). apply build_config_inr in Hb.
    destruct Hb as (H1 & H2 & (text & H3 & Hint) & H4 & H5 & H6 & H7 & H8 & H9 & H10).
    do 3 (split; [assumption|]).
    pose proof (int_option_converts _ _ _ _ H4) as N4.
    pose proof (float_option_converts _ _ _ _ H5) as N5.
    pose proof (int_option_converts _ _ _ _ H6) as N6.
    pose proof (int_option_converts _ _ _ _ H9) as N9.
    pose proof (int_option_converts _ _ _ _ H10) as N10.
    apply get_required_inr in H1, H2, H3.
    apply get_converted_inr in H4, H5, H6, H9, H10.
    apply get_with_fallback_inr in H7, H8.
    destruct H1 as [H1 F1], H2 as [H2 F2], H3 as [H3 F3], H4 as [F4 _], H5 as [F5 _],
      H6 as [F6 _], H7 as [F7 _], H8 as [F8 _], H9 as [F9 _], H10 as [F10 _].
    split; [unfold has_option, opts; now rewrite H1|].
    split; [unfold has_option, opts; now rewrite H2|].
    split; [exists text, (AISConfig.port c); auto|].
    split.
    + unfold optional_numbers_ok, opts. now rewrite N4, N5, N6, N9, N10.
    + apply fetches_ok_all. intros key Hin. cbn in Hin.
      repeat (destruct Hin as [<-|Hin]; [assumption|]). contradiction.
  - intros (Hp & Hr & Hs & H1 & H2 & (text & port & H3 & Hint) & Hnum & Hf).
    assert (Hall : forall key, In key fetched_options -> fetchable f key = true)
      by (now apply fetches_ok_all).
    unfold optional_numbers_ok in Hnum. rewrite !andb_true_iff in Hnum.
    destruct Hnum as ((((N4 & N5) & N6) & N9) & N10).
    unfold has_option, opts in H1, H2.
    destruct (get_option (AIS_options f) "serial_port") as [v1|] eqn:E1;
      [|discriminate H1].
    destruct (get_option (AIS_options f) "ip") as [v2|] eqn:E2; [|discriminate H2].
    destruct (int_option_is_read f "baudrate" 38400%Z) as [a4 H4];
      [apply Hall; cbn; tauto|assumption|].
    destruct (float_option_is_read f "serial_timeout" 2) as [a5 H5];
      [apply Hall; cbn; tauto|assumption|].
    destruct (int_option_is_read f "max_retries" 3%Z) as [a6 H6];
      [apply Hall; cbn; tauto|assumption|].
    destruct (int_option_is_read f "log_max_size" (10 * 1024 * 1024)%Z) as [a9 H9];
      [apply Hall; cbn; tauto|assumption|].
    destruct (int_option_is_read f "log_backup_count" 5%Z) as [a10 H10];
      [apply Hall; cbn; tauto|assumption|].
    eexists (AISConfig.mk v1 v2 port a4 a5 a6 _ _ a9 a10).
    apply load_config_loaded. do 3 (split; [assumption|]).
    apply build_config_inr. cbn.
    split; [apply get_required_inr; split; [assumption|apply Hall; cbn; tauto]|].
    split; [apply get_required_inr; split; [assumption|apply Hall; cbn; tauto]|].
    split; [exists text; split;
            [apply get_required_inr; split; [assumption|apply Hall; cbn; tauto]
            |assumption]|].
    do 3 (split; [assumption|]).
    split; [apply get_with_fallback_inr; split; [apply Hall; cbn; tauto|reflexivity]|].
    split; [apply get_with_fallback_inr; split; [apply Hall; cbn; tauto|reflexivity]|].
    split; assumption.
  - intros code err. unfold load_config.
    destruct (load_config_try py_int py_float f); intros E;
      [injection E as <- _; reflexivity|discriminate E].
Qed.

End LoadConfigFacts.

Lemma load_config_values_witness :
  load_config SampleConfig.decimal SampleConfig.decimal_Q SampleConfig.minimal
    = Loaded SampleConfig.loaded /\
  AISConfig.baudrate SampleConfig.loaded = 38400%Z.
Proof.
  assert (E : load_config SampleConfig.decimal SampleConfig.decimal_Q
                SampleConfig.minimal = Loaded SampleConfig.loaded)
    by (vm_compute; reflexivity).
  split; [exact E|].
  destruct (load_config_values SampleConfig.decimal SampleConfig.decimal_Q
              SampleConfig.minimal SampleConfig.loaded E)
    as (_ & _ & _ & _ & _ & _ & Hbaud & _).
  apply Hbaud. reflexivity.
Defined.

Lemma load_config_succeeds_iff_witness :
  (exists c,
     load_config SampleConfig.decimal SampleConfig.decimal_Q SampleConfig.minimal
       = Loaded c) /\
  ~ (exists c,
       load_config SampleConfig.decimal SampleConfig.decimal_Q
         SampleConfig.bad_baudrate = Loaded c) /\
  ~ (exists c,
       load_config SampleConfig.decimal SampleConfig.decimal_Q
         SampleConfig.percent_in_log_file = Loaded c).
Proof.
  split; [|split].
  - apply (proj1 (load_config_succeeds_iff SampleConfig.decimal
                    SampleConfig.decimal_Q SampleConfig.minimal)).
    repeat split; try reflexivity.
    exists "10110"%string, 10110%Z. split; reflexivity.
  - intros H.
    apply (proj1 (load_config_succeeds_iff SampleConfig.decimal
                    SampleConfig.decimal_Q SampleConfig.bad_baudrate)) in H.
    destruct H as (_ & _ & _ & _ & _ & _ & Hopt & _).
    vm_compute in Hopt. discriminate Hopt.
  - intros H.
    apply (proj1 (load_config_succeeds_iff SampleConfig.decimal
                    SampleConfig.decimal_Q SampleConfig.percent_in_log_file)) in H.
    destruct H as (_ & _ & _ & _ & _ & _ & _ & Hfetch).
    vm_compute in Hfetch. discriminate Hfetch.
Defined.
